(** * timey: a benchmark driver for linker scaling measurements

    A shallow embedding of [src/index.js].  The program chains promises; the
    embedding reads a promise of an [A] as a computation over an explicit
    world that either fulfils with an [A] or rejects with an error, and
    [.then] as the sequencing of two such computations.  Every promise of
    the program is consumed by exactly one [.then] or [.catch] and is never
    shared, so a callback runs when, and only when, the promise before it
    has settled.

    That reading makes the start and the end of a task one step; a second
    reading of the promises of [serialize_tasks], in time (module [Eager]),
    keeps them apart and is the one in which the tasks are shown not to
    overlap.

    JavaScript numbers are modelled by exact integers and rationals; this
    agrees with the IEEE-754 doubles of the program whenever every
    intermediate value is exactly representable, which is the case for all
    the concrete inputs evaluated below and whenever the increment divides
    the linkonce maximum and the products stay below 2^53. *)

From Stdlib Require Import ZArith QArith Qround Lia.
From stdpp Require Import base list sorting strings gmap pretty.

Local Open Scope Z_scope.

(* ===================================================================== *)
(** ** Errors and promises                                                *)
(* ===================================================================== *)

(** The external programs that the driver can spawn. *)
Inductive Tool := RldGen | Repo2obj | Rld | Lld.

(** A path inside a directory: the directory and the entry's name.
    [path.join (dir, name)] of the source. *)
Definition Path : Type := string * string.

(** One subprocess invocation: the tool, the directory of the executable,
    its numeric arguments and its file arguments. *)
Record Invocation := Spawn {
  inv_tool : Tool;
  inv_bin_dir : string;
  inv_work_dir : string;
  inv_numbers : list Z;
  inv_inputs : list Path;
  inv_output : option Path
}.

(** The values a promise of the program can be rejected with. *)
Inductive Error :=
| ENOENT (path : string)            (* fs.stat / fs.unlinkSync on a missing entry *)
| EACCES (path : string)            (* an access that the file system refuses *)
| EISDIR (path : string)            (* fs.unlinkSync / fs.writeFile on a directory *)
| ENOTDIR (path : string)           (* fs.readdir on a regular file *)
| JsError (message : string)        (* new Error (message) *)
| RangeError                        (* Array (n) with an invalid length *)
| ToolFailed (inv : Invocation).    (* a subprocess that exited with a failure *)

Inductive Outcome (A : Type) :=
| Fulfilled (value : A)
| Rejected (reason : Error).
Arguments Fulfilled {A} value.
Arguments Rejected {A} reason.

(** A promise over a world [W]: run from a world, it settles with an outcome
    and leaves a world. *)
Definition Async (W A : Type) : Type := W -> Outcome A * W.

Section Promise.
Context {W : Type}.

(** [Promise.resolve (a)]. *)
Definition resolve {A} (a : A) : Async W A := fun w => (Fulfilled a, w).

(** [Promise.reject (e)], also a [throw e] inside a [.then] callback. *)
Definition reject {A} (e : Error) : Async W A := fun w => (Rejected e, w).

(** [p.then (f)]: [f] runs once [p] is fulfilled, on the world [p] left;
    a rejection of [p] skips [f]. *)
Definition then_ {A B} (p : Async W A) (f : A -> Async W B) : Async W B :=
  fun w =>
    match p w with
    | (Fulfilled a, w1) => f a w1
    | (Rejected e, w1) => (Rejected e, w1)
    end.

(** [p.catch (h)]. *)
Definition catch_ {A} (p : Async W A) (h : Error -> Async W A) : Async W A :=
  fun w =>
    match p w with
    | (Fulfilled a, w1) => (Fulfilled a, w1)
    | (Rejected e, w1) => h e w1
    end.

(** A task: a function of no argument that returns a promise. *)
Definition Task (R : Type) : Type := unit -> Async W R.

(** [serialize_tasks] (index.js, lines 108-112):
    [tasks.reduce ((promise_chain, item) =>
        promise_chain.then (chain_results =>
            item ().then (result => [...chain_results, result])),
      Promise.resolve ([]))]. *)
Definition serialize_tasks {R} (tasks : list (Task R)) : Async W (list R) :=
  fold_left
    (fun promise_chain item =>
       then_ promise_chain (fun chain_results =>
         then_ (item tt) (fun result => resolve (chain_results ++ [result]))))
    tasks (resolve []).

(** The runner as the specification words it: the tasks one after another,
    each from the world its predecessor left, stopping at the first
    rejection. *)
Fixpoint run_serial {R} (tasks : list (Task R)) : Async W (list R) :=
  match tasks with
  | [] => resolve []
  | item :: rest =>
      fun w =>
        match item tt w with
        | (Fulfilled result, w1) =>
            match run_serial rest w1 with
            | (Fulfilled results, w2) => (Fulfilled (result :: results), w2)
            | (Rejected e, w2) => (Rejected e, w2)
            end
        | (Rejected e, w1) => (Rejected e, w1)
        end
  end.

End Promise.

(* ===================================================================== *)
(** ** Observing the serial task runner                                   *)
(* ===================================================================== *)

(** To observe when a task is invoked and when its result is known, a task
    body acting on a state [S] is wrapped so that it leaves two marks in a
    trace kept beside the state. *)
Inductive TaskEvent := Invoked (i : nat) | Settled (i : nat).

Section Observed.
Context {S R : Type}.

Definition Body : Type := S -> Outcome R * S.

Definition observed (i : nat) (body : Body) : Task (W := S * list TaskEvent) R :=
  fun _ '(s, trace) =>
    let invoked := trace ++ [Invoked i] in
    let '(o, s1) := body s in
    (o, (s1, invoked ++ [Settled i])).

(** The tasks of a list of bodies, numbered from [k]. *)
Definition observed_from (k : nat) (bodies : list Body)
  : list (Task (W := S * list TaskEvent) R) :=
  imap (fun i => observed (k + i)) bodies.

(** The marks of [n] tasks run one at a time, numbered from [k]. *)
Definition windows (k n : nat) : list TaskEvent :=
  flat_map (fun i => [Invoked i; Settled i]) (seq k n).

(** Every body fulfils, each from the state its predecessor left. *)
Inductive runs_in_order : list Body -> S -> list R -> S -> Prop :=
| rio_nil s : runs_in_order [] s [] s
| rio_cons body bodies s r s1 rs s2 :
    body s = (Fulfilled r, s1) ->
    runs_in_order bodies s1 rs s2 ->
    runs_in_order (body :: bodies) s (r :: rs) s2.

End Observed.

(** The tasks [ok (v)] and [fail ()] of the specification's examples, on a
    state that counts the bodies that ran. *)
Definition ok (v : Z) : Body (S := nat) (R := Z) := fun n => (Fulfilled v, S n).
Definition fail : Body (S := nat) (R := Z) := fun n => (Rejected (JsError "fail"), S n).

(* ===================================================================== *)
(** ** Promises in time                                                   *)
(* ===================================================================== *)

(** A second reading of the promises of lines 108-112, which keeps what the
    first one forgets: that a task is started at one instant and settles at
    a later one, and that a promise is a value that exists before it
    settles.  Time is counted in ticks.  A promise is given by the instant
    at which it settles and by its outcome; synchronous code runs at one
    instant and can start tasks, each of which leaves its work window in a
    log.  In this reading nothing forces two tasks apart: code that calls
    two tasks in a row starts both at the same instant (see
    [two_calls_in_a_row_overlap]). *)
Module Eager.

Local Open Scope nat_scope.

Record Promise (A : Type) := mkPromise {
  settled_at : nat;
  outcome : Outcome A
}.
Arguments mkPromise {A} settled_at outcome.
Arguments settled_at {A} p.
Arguments outcome {A} p.

(** The work window of a task: its number, the instant it was invoked and
    the instant its result was known. *)
Record Window := mkWindow {
  window_task : nat;
  started_at : nat;
  ended_at : nat
}.

(** Synchronous code: it runs at the instant [now], on the log so far. *)
Definition Sync (A : Type) : Type := nat -> list Window -> A * list Window.

(** Two statements in a row: both run at the same instant. *)
Definition bind {A B} (m : Sync A) (k : A -> Sync B) : Sync B :=
  fun now log => let '(a, log1) := m now log in k a now log1.

(** [Promise.resolve (a)]: settled as soon as it is made. *)
Definition resolve {A} (a : A) : Sync (Promise A) :=
  fun now log => (mkPromise now (Fulfilled a), log).

(** [p.then (f)], called at the instant [now]: the callback runs at the
    instant [p] settles, or at [now] when [p] has settled already; the
    promise returned is the one the callback returns.  A rejection of [p]
    skips the callback. *)
Definition then_ {A B} (p : Promise A) (f : A -> Sync (Promise B)) : Sync (Promise B) :=
  fun now log =>
    let instant := Nat.max now (settled_at p) in
    match outcome p with
    | Fulfilled a => f a instant log
    | Rejected e => (mkPromise instant (Rejected e), log)
    end.

(** A task: a function of no argument that starts some work and returns the
    promise of its result. *)
Definition Task (R : Type) : Type := unit -> Sync (Promise R).

(** [serialize_tasks] (index.js, lines 108-112); the steps of [reduce] run
    in a row, at the instant of the call. *)
Definition serialize_tasks {R} (tasks : list (Task R)) : Sync (Promise (list R)) :=
  fold_left
    (fun promise_chain item =>
       bind promise_chain (fun chain =>
         then_ chain (fun chain_results =>
           bind (item tt) (fun running =>
             then_ running (fun result => resolve (chain_results ++ [result]))))))
    tasks (resolve []).

(** What a task does once invoked: how long it works and how it settles,
    both possibly depending on the instant it is invoked. *)
Definition Behaviour (R : Type) : Type := nat -> nat * Outcome R.

(** The task number [i] with a given behaviour: invoked at [now], it
    returns at once a promise that settles when the work ends, and records
    its window. *)
Definition working {R} (i : nat) (b : Behaviour R) : Task R :=
  fun _ now log =>
    (mkPromise (now + (b now).1) (b now).2,
     log ++ [mkWindow i now (now + (b now).1)]).

(** The tasks of a list of behaviours, numbered from [k]. *)
Definition working_from {R} (k : nat) (bs : list (Behaviour R)) : list (Task R) :=
  imap (fun i => working (k + i)) bs.

(** The tasks one at a time, as the specification words it: each is invoked
    at the instant the one before it settled, and the first rejection ends
    the run.  The instant the run settles, its outcome, and the windows. *)
Fixpoint in_turn {R} (k : nat) (bs : list (Behaviour R)) (now : nat)
    : nat * Outcome (list R) * list Window :=
  match bs with
  | [] => (now, Fulfilled [], [])
  | b :: rest =>
      let finish := now + (b now).1 in
      let window := mkWindow k now finish in
      match (b now).2 with
      | Fulfilled r =>
          let '(instant, o, windows) := in_turn (S k) rest finish in
          (instant,
           match o with Fulfilled rs => Fulfilled (r :: rs) | Rejected e => Rejected e end,
           window :: windows)
      | Rejected e => (finish, Rejected e, [window])
      end
  end.

(** Every behaviour fulfils, each invoked when the one before it settled:
    the results, and the instant the last one settles. *)
Inductive all_fulfil {R} : list (Behaviour R) -> nat -> list R -> nat -> Prop :=
| all_fulfil_nil now : all_fulfil [] now [] now
| all_fulfil_cons b bs now r rs finish :
    (b now).2 = Fulfilled r ->
    all_fulfil bs (now + (b now).1) rs finish ->
    all_fulfil (b :: bs) now (r :: rs) finish.

(** The task [ok (v)] of the specification's example, with an artificial
    delay. *)
Definition ok_after (delay : nat) (v : Z) : Behaviour Z :=
  fun _ => (delay, Fulfilled v).

End Eager.

(* ===================================================================== *)
(** ** The world of the driver                                            *)
(* ===================================================================== *)

(** What a directory entry is, as far as the driver can tell. *)
Inductive Kind := File | Directory.

(** A node of the file system: a regular file, or a directory with its
    entries by name. *)
Inductive Node := NFile | NDir (entries : gmap string Kind).

(** Where a text can be sent: [process.stdout.write] or [fs.writeFile]. *)
Inductive Sink := Stdout | ToFile (path : string).

(** What the top level prints on the error stream: [console.trace] of the
    stack in debug mode, [console.error] of the error otherwise. *)
Inductive Diagnostic := Trace (err : Error) | Message (err : Error).

(** The glob patterns the driver builds: [path.join (dir, '*' + suffix)] and
    [path.join (dir, name)]. *)
Inductive Pattern :=
| AnyEndingIn (dir suffix : string)
| Exactly (dir name : string).

(** What the driver asks of the file system that can be refused for a reason
    the model does not look into (permissions, a read-only file system, a
    missing parent directory): unlinking a file, writing a file. *)
Inductive Access := Unlink (file : Path) | WriteFile (path : string).

(** The world: the file system, the clock read by [Date.now ()], the number
    of logical processors, what each subprocess does to the file system and
    to the clock and whether it succeeds, which accesses the file system
    refuses and with which error, the order of the locale in which [glob]
    sorts names, what [glob] makes of a pattern that the model does not
    interpret, and the history of what the driver did: the subprocesses it
    started, the texts it handed to [process.stdout.write] and to
    [fs.writeFile], the diagnostics it printed and the exit code it set. *)
Record World := mkWorld {
  files : gmap string Node;
  clock : Z;
  cpus : nat;
  subprocess : Invocation -> gmap string Node -> Z -> gmap string Node * Z * bool;
  refuses : Access -> option Error;
  collation : string -> string -> bool;
  uninterpreted : Pattern -> gmap string Node -> list Path;
  spawned : list Invocation;
  written : list (Sink * string);
  diagnostics : list Diagnostic;
  exitCode : Z
}.

Definition set_files (fs : gmap string Node) (w : World) : World :=
  mkWorld fs (clock w) (cpus w) (subprocess w) (refuses w) (collation w)
          (uninterpreted w) (spawned w) (written w)
          (diagnostics w) (exitCode w).

Definition after_subprocess (inv : Invocation) (fs : gmap string Node) (now : Z)
    (w : World) : World :=
  mkWorld fs now (cpus w) (subprocess w) (refuses w) (collation w)
          (uninterpreted w) (spawned w ++ [inv]) (written w)
          (diagnostics w) (exitCode w).

Definition add_written (sink : Sink) (text : string) (w : World) : World :=
  mkWorld (files w) (clock w) (cpus w) (subprocess w) (refuses w) (collation w)
          (uninterpreted w) (spawned w) (written w ++ [(sink, text)])
          (diagnostics w) (exitCode w).

Definition add_diagnostic (d : Diagnostic) (w : World) : World :=
  mkWorld (files w) (clock w) (cpus w) (subprocess w) (refuses w) (collation w)
          (uninterpreted w) (spawned w) (written w)
          (diagnostics w ++ [d]) (exitCode w).

Definition set_exitCode (code : Z) (w : World) : World :=
  mkWorld (files w) (clock w) (cpus w) (subprocess w) (refuses w) (collation w)
          (uninterpreted w) (spawned w) (written w)
          (diagnostics w) code.

(** A promise keeps a component of the world when the world it leaves has
    that component as it found it. *)
Definition keeps {X A : Type} (proj : World -> X) (p : Async World A) : Prop :=
  forall w, proj (p w).2 = proj w.

(** A projection that does not look at the file system. *)
Definition blind_to_files {X : Type} (proj : World -> X) : Prop :=
  forall fs w, proj (set_files fs w) = proj w.

(** The entries of the directory at [dir]; none when [dir] is missing or is
    not a directory. *)
Definition entries_of (fs : gmap string Node) (dir : string) : gmap string Kind :=
  match fs !! dir with
  | Some (NDir entries) => entries
  | _ => ∅
  end.

(* ===================================================================== *)
(** ** Node's library functions                                           *)
(* ===================================================================== *)

Definition pattern_dir (p : Pattern) : string :=
  match p with AnyEndingIn dir _ | Exactly dir _ => dir end.

(** The characters that mean nothing to [glob] nor to [path.join]: letters,
    digits, [_], [-] and [.]. *)
Definition plain_char (c : Ascii.ascii) : bool :=
  let n := Ascii.N_of_ascii c in
  ((48 <=? n) && (n <=? 57) || (65 <=? n) && (n <=? 90) || (97 <=? n) && (n <=? 122)
   || (n =? 95) || (n =? 45) || (n =? 46))%N.

(** A name that [glob] takes literally and that [path.join] leaves in the
    directory: plain characters only, and not empty, [.] or [..]. *)
Definition plain_name (name : string) : bool :=
  forallb plain_char (String.list_ascii_of_string name)
  && negb (String.eqb name "") && negb (String.eqb name ".")
  && negb (String.eqb name "..").

(** A directory path that [glob] takes literally: plain characters and
    slashes. *)
Definition plain_path (dir : string) : bool :=
  forallb (fun c => plain_char c || (Ascii.N_of_ascii c =? 47)%N)
          (String.list_ascii_of_string dir).

(** The patterns that the model interprets: those in which only the [*] of
    the source is a glob character. *)
Definition plain_pattern (p : Pattern) : bool :=
  match p with
  | AnyEndingIn dir _ => plain_path dir
  | Exactly dir name => plain_path dir && plain_name name
  end.

Definition ends_with (suffix name : string) : bool :=
  String.prefix (String.rev suffix) (String.rev name).

(** Whether an entry name matches: a [*] matches any run of characters, but
    not a leading dot. *)
Definition matches (p : Pattern) (name : string) : bool :=
  match p with
  | AnyEndingIn _ suffix => negb (String.prefix "." name) && ends_with suffix name
  | Exactly _ n => String.eqb n name
  end.

(** The order of a locale, as a relation. *)
Definition collates (le : string -> string -> bool) : relation string :=
  fun a b => Is_true (le a b).

#[global] Instance collates_dec (le : string -> string -> bool) : RelDecision (collates le).
Proof. intros a b. unfold collates. apply _. Defined.

(** The names among [entries] that match [p], sorted in the order [le] as
    [glob] sorts its result in the order of the locale. *)
Definition matching (le : string -> string -> bool) (p : Pattern)
    (entries : gmap string Kind) : list string :=
  merge_sort (collates le)
    (base.filter (fun name => Is_true (matches p name)) (map_to_list entries).*1).

(** What [glob (pattern)] finds in a world.  For a pattern whose directory
    and name are plain, the entries of the directory that match; an empty
    list when nothing matches, also when the directory is missing.  The
    source hands [path.join (dir, ...)] to [glob], which also interprets the
    glob characters of [dir]: what it finds then is left to the world. *)
Definition globbed (p : Pattern) (w : World) : list Path :=
  if plain_pattern p
  then map (fun name => (pattern_dir p, name))
           (matching (collation w) p (entries_of (files w) (pattern_dir p)))
  else uninterpreted w p (files w).

(** [glob (pattern)]. *)
Definition glob (p : Pattern) : Async World (list Path) :=
  fun w => (Fulfilled (globbed p w), w).

(** [path.join (dir, name)], for a [dir] without a slash at its end. *)
Definition join_path (file : Path) : string := file.1 +:+ "/" +:+ file.2.

(** [fs.unlinkSync (file)]: removes a regular file, unless the file system
    refuses; throws on a directory and on a missing entry. *)
Definition unlinkSync (file : Path) : Async World unit :=
  fun w =>
    match files w !! file.1 with
    | Some (NDir entries) =>
        match entries !! file.2 with
        | Some File =>
            match refuses w (Unlink file) with
            | Some err => (Rejected err, w)
            | None =>
                (Fulfilled tt,
                 set_files (<[file.1 := NDir (delete file.2 entries)]> (files w)) w)
            end
        | Some Directory => (Rejected (EISDIR (join_path file)), w)
        | None => (Rejected (ENOENT (join_path file)), w)
        end
    | _ => (Rejected (ENOENT (join_path file)), w)
    end.

(** [contents.forEach (f)] for an [f] that can throw: the first exception
    leaves the loop. *)
Fixpoint forEach {A} (f : A -> Async World unit) (contents : list A) : Async World unit :=
  match contents with
  | [] => resolve tt
  | x :: rest => then_ (f x) (fun _ => forEach f rest)
  end.

(** [promisify (fs.stat) (path)]. *)
Definition stat (path : string) : Async World Node :=
  fun w =>
    match files w !! path with
    | Some node => (Fulfilled node, w)
    | None => (Rejected (ENOENT path), w)
    end.

Definition isDirectory (stats : Node) : bool :=
  match stats with NDir _ => true | NFile => false end.

(** [promisify (fs.readdir) (path)]. *)
Definition readdir (path : string) : Async World (list string) :=
  fun w =>
    match files w !! path with
    | Some (NDir entries) => (Fulfilled (map_to_list entries).*1, w)
    | Some NFile => (Rejected (ENOTDIR path), w)
    | None => (Rejected (ENOENT path), w)
    end.

(** Why [fs.writeFile] fails on a path, if it does: the path is a
    directory, or the file system refuses. *)
Definition write_error (w : World) (path : string) : option Error :=
  match files w !! path with
  | Some (NDir _) => Some (EISDIR path)
  | _ => refuses w (WriteFile path)
  end.

(** [promisify (fs.writeFile) (path, text)]: the call is recorded; it leaves
    a regular file unless it fails. *)
Definition writeFile (path text : string) : Async World unit :=
  fun w =>
    let called := add_written (ToFile path) text w in
    match write_error w path with
    | Some err => (Rejected err, called)
    | None => (Fulfilled tt, set_files (<[path := NFile]> (files w)) called)
    end.

(** [process.stdout.write (text)]. *)
Definition stdout_write (text : string) : Async World unit :=
  fun w => (Fulfilled tt, add_written Stdout text w).

(** [Date.now ()]. *)
Definition Date_now (w : World) : Z := clock w.

(** [async.mapLimit (coll, limit, iteratee)]: the results in the order of
    the collection, or the first error.  The model starts the iteratees in
    the order of the collection and does not interleave them, whatever the
    limit. *)
Fixpoint mapLimit {A B} (coll : list A) (limit : nat) (iteratee : A -> Async World B)
    : Async World (list B) :=
  match coll with
  | [] => resolve []
  | x :: rest =>
      then_ (iteratee x) (fun y =>
        then_ (mapLimit rest limit iteratee) (fun ys => resolve (y :: ys)))
  end.

(** A line feed. *)
Definition LF : string := String (Ascii.ascii_of_nat 10) "".

(** [Number.prototype.toString] on an integer (below 10^21 in absolute
    value, where the program prints every digit). *)
Definition number_to_string (n : Z) : string := pretty n.

(** [inner.join (sep)] on an array of numbers. *)
Definition join (sep : string) (inner : list Z) : string :=
  String.concat sep (map number_to_string inner).

(* ===================================================================== *)
(** ** The external tool runner                                           *)
(* ===================================================================== *)

(** Modelled from the spec: the module [./run] (the External Tool Runner) is
    not part of the sources at hand.  The specification describes it as a
    thin adapter of four operations, each a subprocess invocation located
    under the binary directory that succeeds or fails.  An invocation is
    recorded in the world's history; what the subprocess does to the file
    system and how long it takes is the world's [subprocess]. *)
Definition exec (inv : Invocation) : Async World unit :=
  fun w =>
    let '(fs, now, success) := subprocess w inv (files w) (clock w) in
    (if success : bool then Fulfilled tt else Rejected (ToolFailed inv),
     after_subprocess inv fs now w).

(** Modelled from the spec: the four operations of the runner of [./run]. *)
Record Runner := mkRunner {
  rld_gen : Z -> Z -> Z -> Async World unit;
  repo2obj : Path -> Path -> Async World unit;
  rld : list Path -> Path -> Async World unit;
  lld : list Path -> Path -> Async World unit
}.

(** Modelled from the spec: [run.runner (bin_dir, work_dir, repo_name,
    verbose)] of [./run]; each operation is one subprocess invocation. *)
Definition runner (bin_dir work_dir repo_name : string) (verbose : bool) : Runner :=
  mkRunner
    (fun num_modules num_external num_linkonce =>
       exec (Spawn RldGen bin_dir work_dir [num_modules; num_external; num_linkonce] [] None))
    (fun ticket_file elf_file =>
       exec (Spawn Repo2obj bin_dir work_dir [] [ticket_file] (Some elf_file)))
    (fun inputs out => exec (Spawn Rld bin_dir work_dir [] inputs (Some out)))
    (fun inputs out => exec (Spawn Lld bin_dir work_dir [] inputs (Some out))).

(* ===================================================================== *)
(** ** The driver (index.js)                                              *)
(* ===================================================================== *)

(** [all_tickets_pattern] (lines 20-22): [path.join (work_dir, '*.o')]. *)
Definition all_tickets_pattern (work_dir : string) : Pattern :=
  AnyEndingIn work_dir ".o".

(** [clean_all] (lines 31-39). *)
Definition clean_all (work_dir repo_name : string) : Async World unit :=
  let clean := fun pattern =>
    then_ (glob pattern) (fun contents => forEach (fun file => unlinkSync file) contents) in
  then_
    (then_ (clean (all_tickets_pattern work_dir))
           (fun _ => clean (AnyEndingIn work_dir ".o.elf")))
    (fun _ => clean (Exactly work_dir repo_name)).


(** Why an existing entry cannot be unlinked, if it cannot: it is a
    directory, or the file system refuses.  Nothing for an absent entry,
    which [glob] never returns. *)
Definition unlink_error (w : World) (file : Path) : option Error :=
  match entries_of (files w) file.1 !! file.2 with
  | Some Directory => Some (EISDIR (join_path file))
  | Some File => refuses w (Unlink file)
  | None => None
  end.

(** Lines 41-43. *)
Definition is_repo_linker : bool := true.
Definition verbose : bool := true.
Definition repo_name : string := "repository.db".

(** [single_run] (lines 52-77). *)
Definition single_run (bin_dir work_dir : string)
    (num_modules num_external_symbols num_linkonce_symbols : Z) : Async World Z :=
  let r := runner bin_dir work_dir repo_name verbose in
  then_
    (then_
       (then_
          (then_ (clean_all work_dir repo_name)
                 (fun _ => rld_gen r num_modules num_external_symbols num_linkonce_symbols))
          (fun _ => glob (all_tickets_pattern work_dir)))
       (fun ticket_files =>
          if is_repo_linker
          then resolve ticket_files
          else fun w =>
            mapLimit ticket_files (cpus w)
              (fun ticket_file =>
                 let elf_file := (ticket_file.1, ticket_file.2 +:+ ".elf") in
                 then_ (repo2obj r ticket_file elf_file) (fun _ => resolve elf_file)) w))
    (fun ld_inputs w =>
       let start := Date_now w in
       catch_
         (then_ ((if is_repo_linker then rld r else lld r) ld_inputs (work_dir, "a.out"))
                (fun _ w1 => (Fulfilled (Date_now w1 - start), w1)))
         (fun err => reject err) w).

(** The ticket files the run finds in a world. *)
Definition ticket_files_in (work_dir : string) (w : World) : list Path :=
  globbed (all_tickets_pattern work_dir) w.

(** [check_work_directory] (lines 85-99). *)
Definition check_work_directory (work_dir : string) (force : bool) : Async World bool :=
  then_
    (then_ (stat work_dir) (fun stats =>
       if negb (isDirectory stats)
       then reject (JsError "The specified work directory is not a directory")
       else readdir work_dir))
    (fun files =>
       if (0 <? length files)%nat && negb force
       then reject (JsError "The specified work directory was not empty (--force to continue anyway)")
       else resolve true).

(** The options of the command line, as [yargs] hands them over; the
    numeric options are taken to be integers. *)
Record Argv := mkArgv {
  workDir : string;
  binDir : string;
  output : string;
  force : bool;
  debug : bool;
  increment : Z;
  external : Z;
  linkonce : Z;
  modules : Z
}.

(** The integer part of a rational, towards zero. *)
Definition Qtrunc (q : Q) : Z := Z.quot (Qnum q) (Z.pos (Qden q)).

(** [a % b] on numbers: the remainder has the sign of [a]. *)
Definition js_rem (a b : Q) : Q := (a - b * inject_Z (Qtrunc (a / b)))%Q.

(** [Math.floor ((lomax * extmax) / (incr * incr))] (line 147), in exact
    arithmetic; no number when the division is by zero, where the program
    has an infinity or a NaN.  The program computes in binary64: its length
    is this one as long as both products are below 2^53, where the products
    are exact and the rounded quotient of two such integers has the floor of
    the exact one. *)
Definition sweep_length (lomax extmax incr : Z) : option Z :=
  if incr * incr =? 0 then None
  else Some (Qfloor (inject_Z (lomax * extmax) / inject_Z (incr * incr))).

(** [Array (n)]: a RangeError unless [n] is an integer from 0 to 2^32 - 1. *)
Definition Array (n : option Z) : option nat :=
  match n with
  | Some n => if (0 <=? n) && (n <? 2 ^ 32) then Some (Z.to_nat n) else None
  | None => None
  end.

(** Lines 150 and 151:
    [(Math.floor (i / (lomax / incr)) + 1) * incr] and
    [(i % (lomax / incr) + 1) * incr], in exact arithmetic.  The program
    computes in binary64: its numbers are these when [incr] divides [lomax]
    and all the integers at hand are below 2^53; when [incr] does not
    divide [lomax] the quotient [lomax / incr] can be rounded, and the
    program's numbers can differ. *)
Definition num_external_at (lomax incr : Z) (i : nat) : Q :=
  ((inject_Z (Qfloor (inject_Z (Z.of_nat i) / (inject_Z lomax / inject_Z incr))) + 1)
   * inject_Z incr)%Q.

Definition num_linkonce_at (lomax incr : Z) (i : nat) : Q :=
  ((js_rem (inject_Z (Z.of_nat i)) (inject_Z lomax / inject_Z incr) + 1)
   * inject_Z incr)%Q.

(** The symbol counts at index [i].  For positive maxima and increment both
    numbers are integers in exact arithmetic (see [num_external_at_integral]
    and [num_linkonce_at_integral]) and are kept as such. *)
Definition grid_point (lomax incr : Z) (i : nat) : Z * Z :=
  (Qfloor (num_external_at lomax incr i), Qfloor (num_linkonce_at lomax incr i)).

(** The parameter grid of lines 147-151: the symbol counts of every task, in
    the order of the tasks; nothing when [Array] throws. *)
Definition grid (lomax extmax incr : Z) : option (list (Z * Z)) :=
  match Array (sweep_length lomax extmax incr) with
  | Some n => Some (map (fun i => grid_point lomax incr i) (seq 0 n))
  | None => None
  end.

(** The task of one grid point (lines 152-153). *)
Definition run_task (argv : Argv) (point : Z * Z) : Task (W := World) (list Z) :=
  let num_external := point.1 in
  let num_linkonce := point.2 in
  fun _ =>
    then_ (single_run (binDir argv) (workDir argv) (modules argv) num_external num_linkonce)
          (fun time => resolve [num_external; num_linkonce; time]).

(** Lines 142-155: the validation of the work directory, then the sweep. *)
Definition sweep (argv : Argv) : Async World (list (list Z)) :=
  then_ (check_work_directory (workDir argv) (force argv)) (fun _ =>
    let lomax := linkonce argv in
    let extmax := external argv in
    let incr := increment argv in
    match grid lomax extmax incr with
    | Some points => serialize_tasks (map (run_task argv) points)
    | None => reject RangeError
    end).

(** The destination of the results: standard output for [-], the named file
    otherwise. *)
Definition sink_of (argv : Argv) : Sink :=
  if String.eqb (output argv) "-" then Stdout else ToFile (output argv).

(** Line 164: [results.reduce ((acc, inner) => acc + inner.join (' ') + '\n', '')]. *)
Definition flatten_results (results : list (list Z)) : string :=
  fold_left (fun acc inner => (acc +:+ join " " inner) +:+ LF) results "".

(** Lines 156-168: the text of the results and its destination. *)
Definition report (argv : Argv) (results : list (list Z)) : Async World unit :=
  let write_output := fun text => writeFile (output argv) text in
  let write_stdout := fun text => stdout_write text in
  let results := flatten_results results in
  (if String.eqb (output argv) "-" then write_stdout else write_output)
    ("external linkonce time" +:+ LF +:+ results).

(** Lines 169-176: the handler of every failure. *)
Definition on_error (argv : Argv) (err : Error) : Async World unit :=
  fun w =>
    (Fulfilled tt,
     set_exitCode 1 (add_diagnostic (if debug argv then Trace err else Message err) w)).

(** [main] (lines 114-177), from the parsed options on: the world the
    process leaves. *)
Definition main (argv : Argv) (w : World) : World :=
  (catch_ (then_ (sweep argv) (report argv)) (on_error argv) w).2.

(** The rows of a sweep over [points] that starts in [w] and ends in [w']:
    one row per point, in order; the run of a point starts in the world that
    the run of the point before it left, and its row holds the two symbol
    counts of the point and the time that this very run returned. *)
Inductive measured_rows (argv : Argv)
    : list (Z * Z) -> World -> list (list Z) -> World -> Prop :=
| measured_nil (w : World) : measured_rows argv [] w [] w
| measured_cons (point : Z * Z) (points : list (Z * Z)) (w : World)
    (time : Z) (w1 : World) (rows : list (list Z)) (w' : World) :
    single_run (binDir argv) (workDir argv) (modules argv) point.1 point.2 w
    = (Fulfilled time, w1) ->
    measured_rows argv points w1 rows w' ->
    measured_rows argv (point :: points) w ([point.1; point.2; time] :: rows) w'.

(* ===================================================================== *)
(** ** Worlds and options for the examples                                *)
(* ===================================================================== *)

(** The options with the defaults of [yargs] (lines 117-136) and a work
    directory. *)
Definition default_argv : Argv :=
  mkArgv "/tmp/work" "/usr/bin" "-" false false 1000 2000 2000 10.

(** Options whose maxima are both below the increment. *)
Definition small_argv : Argv :=
  mkArgv "/tmp/work" "/usr/bin" "-" false false 1000 500 500 10.

(** The options of the end-to-end example of the specification: two
    modules, one grid point. *)
Definition one_point_argv : Argv :=
  mkArgv "/tmp/work" "/usr/bin" "-" false false 2000 2000 2000 2.

(** Options with the external maximum below the increment. *)
Definition below_increment_argv : Argv :=
  mkArgv "/tmp/work" "/usr/bin" "-" false false 2000 1000 5000 10.

(** External programs that always succeed: the generator adds two ticket
    files to the work directory after 5 ms, any other program leaves the
    file system alone and takes 7 ms. *)
Definition obliging (inv : Invocation) (fs : gmap string Node) (now : Z)
    : gmap string Node * Z * bool :=
  match inv_tool inv with
  | RldGen =>
      (<[inv_work_dir inv :=
           NDir (<["t0.o" := File]> (<["t1.o" := File]>
                   (entries_of fs (inv_work_dir inv))))]> fs,
       now + 5, true)
  | _ => (fs, now + 7, true)
  end.

(** Options with a zero increment. *)
Definition zero_increment_argv : Argv :=
  mkArgv "/tmp/work" "/usr/bin" "-" false false 0 2000 2000 10.

(** Options that send the results to the file [/tmp/out]. *)
Definition to_file_argv : Argv :=
  mkArgv "/tmp/work" "/usr/bin" "/tmp/out" false false 2000 2000 2000 2.

(** External programs that always fail, after 1 ms. *)
Definition stubborn (inv : Invocation) (fs : gmap string Node) (now : Z)
    : gmap string Node * Z * bool :=
  (fs, now + 1, false).

(** A world at time 0 with four processors, no history and programs that
    always fail; the file system refuses nothing. *)
Definition hostile_world (fs : gmap string Node) : World :=
  mkWorld fs 0 4 stubborn (fun _ => None) String.leb (fun _ _ => []) [] [] [] 0.

(** A world at time 0 with four processors and no history, in which the
    file system refuses nothing and names sort by character code. *)
Definition fresh_world (fs : gmap string Node) : World :=
  mkWorld fs 0 4 obliging (fun _ => None) String.leb (fun _ _ => []) [] [] [] 0.

(** A work directory with left-overs of a previous run and a foreign file. *)
Definition stale_entries : gmap string Kind :=
  <["t0.o" := File]> (<["t0.o.elf" := File]> (<["repository.db" := File]>
    (<["notes.txt" := File]> ∅))).


(** A file system that refuses every unlinking, for want of permission, and
    every writing, as below a parent directory that is missing. *)
Definition refusing (access : Access) : option Error :=
  match access with
  | Unlink file => Some (EACCES (join_path file))
  | WriteFile path => Some (ENOENT path)
  end.

(** A world like [fresh_world] on such a file system. *)
Definition guarded_world (fs : gmap string Node) : World :=
  mkWorld fs 0 4 obliging refusing String.leb (fun _ _ => []) [] [] [] 0.

(** Options that send the results below a directory that is missing. *)
Definition missing_parent_argv : Argv :=
  mkArgv "/tmp/work" "/usr/bin" "/no/such/dir/out.txt" false false 2000 2000 2000 2.

(** A [glob] that reads the brackets of the directory [/tmp/work[1]] as the
    character class they are: it looks into [/tmp/work1]. *)
Definition bracket_glob (p : Pattern) (fs : gmap string Node) : list Path :=
  map (fun name => ("/tmp/work1", name))
      (matching String.leb p (entries_of fs "/tmp/work1")).

(** A world with the two directories [/tmp/work[1]] and [/tmp/work1], a
    ticket file in each. *)
Definition bracket_world : World :=
  mkWorld (<["/tmp/work[1]" := NDir (<["t0.o" := File]> ∅)]>
             (<["/tmp/work1" := NDir (<["t0.o" := File]> ∅)]> ∅))
          0 4 obliging (fun _ => None) String.leb bracket_glob [] [] [] 0.

(* ===================================================================== *)
(** ** Properties of the serial task runner                               *)
(* ===================================================================== *)

Section PromiseFacts.
Context {W : Type}.

Lemma serialize_tasks_fold {R} (tasks : list (Task (W := W) R)) :
  forall (acc : Async W (list R)) w,
    fold_left
      (fun promise_chain item =>
         then_ promise_chain (fun chain_results =>
           then_ (item tt) (fun result => resolve (chain_results ++ [result]))))
      tasks acc w
    = match acc w with
      | (Fulfilled rs0, w1) =>
          match run_serial tasks w1 with
          | (Fulfilled rs, w2) => (Fulfilled (rs0 ++ rs), w2)
          | (Rejected e, w2) => (Rejected e, w2)
          end
      | (Rejected e, w1) => (Rejected e, w1)
      end.
Proof.
  induction tasks as [|item rest IH]; intros acc w; simpl.
  - destruct (acc w) as [[rs0|e] w1]; [|reflexivity].
    unfold resolve. by rewrite app_nil_r.
  - rewrite IH. unfold then_, resolve.
    destruct (acc w) as [[rs0|e] w1]; [|reflexivity].
    destruct (item tt w1) as [[r|e] w2]; [|reflexivity].
    destruct (run_serial rest w2) as [[rs|e] w3]; [|reflexivity].
    by rewrite <- app_assoc.
Qed.

(** The promise chain built by [reduce] runs the tasks serially. *)
Lemma serialize_tasks_run_serial {R} (tasks : list (Task (W := W) R)) w :
  serialize_tasks tasks w = run_serial tasks w.
Proof.
  unfold serialize_tasks. rewrite serialize_tasks_fold. unfold resolve.
  by destruct (run_serial tasks w) as [[rs|e] w2].
Qed.

End PromiseFacts.

Section ObservedFacts.
Context {S R : Type}.
Implicit Types (bodies : list (Body (S := S) (R := R))).

Lemma observed_from_cons k body bodies :
  observed_from k (body :: bodies)
  = observed (k + 0) body :: observed_from (Datatypes.S k) bodies.
Proof.
  unfold observed_from. rewrite imap_cons. f_equal.
  apply imap_ext. intros i x _. simpl. f_equal. lia.
Qed.

Lemma windows_cons k n :
  windows k (Datatypes.S n) = [Invoked k; Settled k] ++ windows (Datatypes.S k) n.
Proof. reflexivity. Qed.

Lemma run_serial_all_fulfilled bodies :
  forall k s tr rs s',
    runs_in_order bodies s rs s' ->
    run_serial (observed_from k bodies) (s, tr)
    = (Fulfilled rs, (s', tr ++ windows k (length bodies))).
Proof.
  induction bodies as [|body bodies IH]; intros k s tr rs s' Hrun;
    inversion Hrun as [|? ? ? r s1 rs' ? Hbody Hrest]; subst.
  - simpl. unfold resolve, windows. simpl. by rewrite app_nil_r.
  - rewrite observed_from_cons. simpl run_serial. rewrite Hbody.
    erewrite IH by eassumption.
    rewrite Nat.add_0_r, <- !app_assoc. reflexivity.
Qed.

Lemma run_serial_first_rejection bodies :
  forall k s tr rs s1 failing e s2 later,
    runs_in_order bodies s rs s1 ->
    failing s1 = (Rejected e, s2) ->
    run_serial (observed_from k (bodies ++ failing :: later)) (s, tr)
    = (Rejected e, (s2, tr ++ windows k (Datatypes.S (length bodies)))).
Proof.
  induction bodies as [|body bodies IH];
    intros k s tr rs s1 failing e s2 later Hrun Hfail;
    inversion Hrun as [|? ? ? r s0 rs' ? Hbody Hrest]; subst; simpl app;
    rewrite observed_from_cons; simpl run_serial.
  - rewrite Hfail, Nat.add_0_r, <- app_assoc. reflexivity.
  - rewrite Hbody. erewrite IH by eassumption.
    rewrite Nat.add_0_r, <- !app_assoc. reflexivity.
Qed.

End ObservedFacts.

Section WindowFacts.

Lemma Invoked_in_windows k n j :
  Invoked j ∈ windows k n -> (k <= j < k + n)%nat.
Proof.
  revert k. induction n as [|n IH]; intros k Hin.
  - by apply elem_of_nil in Hin.
  - rewrite windows_cons in Hin. simpl in Hin.
    apply elem_of_cons in Hin as [Heq|Hin]; [injection Heq as ->; lia|].
    apply elem_of_cons in Hin as [Heq|Hin]; [discriminate|].
    apply IH in Hin. lia.
Qed.

End WindowFacts.

(** C2.  The serial task runner stops at the first failing task and
    propagates its failure: the promise is rejected with the reason of that
    task (so no array of results is returned, not even a partial one), the
    state is the one the failing task left, and no task after the failing
    one is ever invoked. *)
Theorem serialize_tasks_stops_at_first_failure {S R : Type}
    (bodies : list (Body (S := S) (R := R))) (failing : Body) (later : list Body)
    (s : S) (rs : list R) (s1 : S) (e : Error) (s2 : S) :
  runs_in_order bodies s rs s1 ->
  failing s1 = (Rejected e, s2) ->
  exists trace,
    serialize_tasks (observed_from 0 (bodies ++ failing :: later)) (s, [])
    = (Rejected e, (s2, trace))
    /\ forall j, (length bodies < j)%nat -> Invoked j ∉ trace.
Proof.
  intros Hrun Hfail. exists (windows 0 (Datatypes.S (length bodies))). split.
  - rewrite serialize_tasks_run_serial.
    exact (run_serial_first_rejection bodies 0 s [] rs s1 failing e s2 later Hrun Hfail).
  - intros j Hlt Hin. apply Invoked_in_windows in Hin. lia.
Qed.

Lemma serialize_tasks_stops_at_first_failure_witness :
  exists trace,
    serialize_tasks (observed_from 0 ([ok 1; ok 2] ++ fail :: [ok 3])) (0%nat, [])
    = (Rejected (JsError "fail"), (3%nat, trace))
    /\ forall j, (length [ok 1; ok 2] < j)%nat -> Invoked j ∉ trace.
Proof.
  apply (serialize_tasks_stops_at_first_failure
           [ok 1; ok 2] fail [ok 3] 0%nat [1; 2] 2%nat (JsError "fail") 3%nat).
  - repeat econstructor.
  - reflexivity.
Defined.

(* ===================================================================== *)
(** ** The serial task runner in time                                     *)
(* ===================================================================== *)

Section EagerFacts.
Context {R : Type}.
Local Open Scope nat_scope.
Implicit Types (bs : list (Eager.Behaviour R)).

Lemma working_from_cons k (b : Eager.Behaviour R) bs :
  Eager.working_from k (b :: bs)
  = Eager.working (k + 0) b :: Eager.working_from (S k) bs.
Proof.
  unfold Eager.working_from. rewrite imap_cons. f_equal.
  apply imap_ext. intros i x _. simpl. f_equal. lia.
Qed.

(** One step of [reduce] over a task that works, from a chain that has
    settled or will. *)
Lemma eager_step (b : Eager.Behaviour R) k
    (acc : Eager.Sync (Eager.Promise (list R))) now log :
  now <= Eager.settled_at (acc now log).1 ->
  Eager.bind acc (fun chain =>
    Eager.then_ chain (fun chain_results =>
      Eager.bind (Eager.working k b tt) (fun running =>
        Eager.then_ running (fun result =>
          Eager.resolve (chain_results ++ [result]))))) now log
  = match Eager.outcome (acc now log).1 with
    | Fulfilled rs0 =>
        let start := Eager.settled_at (acc now log).1 in
        let finish := start + (b start).1 in
        (Eager.mkPromise finish
           match (b start).2 with
           | Fulfilled r => Fulfilled (rs0 ++ [r])
           | Rejected e => Rejected e
           end,
         (acc now log).2 ++ [Eager.mkWindow k start finish])
    | Rejected e => acc now log
    end.
Proof.
  intros Hle. unfold Eager.bind at 1.
  destruct (acc now log) as [[t o] log1]. simpl in Hle. unfold Eager.then_ at 1.
  cbn [Eager.settled_at Eager.outcome fst snd]. rewrite Nat.max_r by done.
  destruct o as [rs0|e]; [|done].
  unfold Eager.bind, Eager.working, Eager.then_, Eager.resolve.
  cbn [Eager.settled_at Eager.outcome fst snd].
  rewrite Nat.max_r by lia. by destruct ((b t).2).
Qed.

(** The chain that [reduce] builds over tasks that work. *)
Lemma eager_fold bs :
  forall k (acc : Eager.Sync (Eager.Promise (list R))) now log,
    now <= Eager.settled_at (acc now log).1 ->
    fold_left
      (fun promise_chain item =>
         Eager.bind promise_chain (fun chain =>
           Eager.then_ chain (fun chain_results =>
             Eager.bind (item tt) (fun running =>
               Eager.then_ running (fun result =>
                 Eager.resolve (chain_results ++ [result]))))))
      (Eager.working_from k bs) acc now log
    = match Eager.outcome (acc now log).1 with
      | Fulfilled rs0 =>
          let '(instant, o, windows) :=
            Eager.in_turn k bs (Eager.settled_at (acc now log).1) in
          (Eager.mkPromise instant
             match o with
             | Fulfilled rs => Fulfilled (rs0 ++ rs)
             | Rejected e => Rejected e
             end,
           (acc now log).2 ++ windows)
      | Rejected e => acc now log
      end.
Proof.
  induction bs as [|b bs IH]; intros k acc now log Hle.
  - simpl. destruct (acc now log) as [[t [rs0|e]] log1]; simpl; [|done].
    by rewrite !app_nil_r.
  - rewrite working_from_cons, Nat.add_0_r. cbn [fold_left].
    pose proof (eager_step b k acc now log Hle) as Hstep.
    rewrite IH; rewrite Hstep; clear IH Hstep.
    + destruct (acc now log) as [[t [rs0|e]] log1]; [|done].
      cbn [Eager.settled_at Eager.outcome fst snd Eager.in_turn].
      destruct ((b t).2) as [r|e]; cbn [Eager.settled_at Eager.outcome fst snd].
      * destruct (Eager.in_turn (S k) bs (t + (b t).1)) as [[instant o] windows].
        simpl. rewrite <- ?app_assoc. simpl.
        destruct o as [rs|e]; [by rewrite <- ?app_assoc|done].
      * simpl. by rewrite <- ?app_assoc.
    + destruct (acc now log) as [[t [rs0|e]] log1]; simpl in *; lia.
Qed.

Lemma eager_serialize_tasks bs now :
  Eager.serialize_tasks (Eager.working_from 0 bs) now []
  = let '(instant, o, windows) := Eager.in_turn 0 bs now in
    (Eager.mkPromise instant o, windows).
Proof.
  unfold Eager.serialize_tasks. rewrite eager_fold by (simpl; lia). simpl.
  destruct (Eager.in_turn 0 bs now) as [[instant o] windows].
  by destruct o.
Qed.

Lemma in_turn_all_fulfil bs :
  forall k now rs finish,
    Eager.all_fulfil bs now rs finish ->
    (Eager.in_turn k bs now).1 = (finish, Fulfilled rs)
    /\ length (Eager.in_turn k bs now).2 = length bs.
Proof.
  induction bs as [|b bs IH]; intros k now rs finish Hall;
    inversion Hall as [|? ? ? r rs' ? Hb Hrest]; subst; [done|].
  simpl. rewrite Hb.
  destruct (IH (S k) _ _ _ Hrest) as [Hres Hlen].
  destruct (Eager.in_turn (S k) bs (now + (b now).1)) as [[instant o] windows].
  simpl in *. injection Hres as -> ->. by rewrite Hlen.
Qed.

(** Every window of a run in turn bears the number of its place, and starts
    no earlier than the run. *)
Lemma in_turn_window bs :
  forall k now i w,
    (Eager.in_turn k bs now).2 !! i = Some w ->
    Eager.window_task w = (k + i)%nat
    /\ (now <= Eager.started_at w)%nat
    /\ (Eager.started_at w <= Eager.ended_at w)%nat.
Proof.
  induction bs as [|b bs IH]; intros k now i w Hw; [done|].
  simpl in Hw. destruct ((b now).2) as [r|e].
  - specialize (IH (S k) (now + (b now).1)%nat).
    destruct (Eager.in_turn (S k) bs (now + (b now).1)) as [[instant o] windows].
    simpl in *. destruct i as [|i]; simpl in Hw.
    + injection Hw as <-. simpl. lia.
    + destruct (IH i w Hw) as (Ht & Hs & He). lia.
  - destruct i as [|[|i]]; simpl in Hw; [|done|done].
    injection Hw as <-. simpl. lia.
Qed.

(** In a run in turn no window begins before the one before it has ended. *)
Lemma in_turn_no_overlap bs :
  forall k now i j wi wj,
    (Eager.in_turn k bs now).2 !! i = Some wi ->
    (Eager.in_turn k bs now).2 !! j = Some wj ->
    (i < j)%nat ->
    (Eager.ended_at wi <= Eager.started_at wj)%nat.
Proof.
  induction bs as [|b bs IH]; intros k now i j wi wj Hi Hj Hlt; [done|].
  simpl in Hi, Hj. destruct ((b now).2) as [r|e].
  - pose proof (in_turn_window bs (S k) (now + (b now).1)%nat) as Hwin.
    specialize (IH (S k) (now + (b now).1)%nat).
    destruct (Eager.in_turn (S k) bs (now + (b now).1)) as [[instant o] windows].
    simpl in *. destruct j as [|j]; [lia|]. simpl in Hj.
    destruct i as [|i]; simpl in Hi.
    + injection Hi as <-. simpl. destruct (Hwin j wj Hj) as (_ & Hs & _). lia.
    + apply (IH i j wi wj Hi Hj). lia.
  - destruct j as [|[|j]]; simpl in Hj; [lia|done|done].
Qed.

End EagerFacts.

(** C1.  The serial task runner runs its tasks strictly one at a time.
    Tasks that each work for some time are given to it at the instant
    [now]; whatever their durations and outcomes, the windows they leave are
    those of the tasks in the order of the list, the first begins at [now],
    and no task is invoked before the result of the task before it is
    known: no two windows overlap.  When every task fulfils, the promise of
    the runner settles when the last task does, with the results in the
    order of the tasks, and every task has run. *)
Theorem serialize_tasks_one_at_a_time {R : Type}
    (bs : list (Eager.Behaviour R)) (now : nat) :
  let run := Eager.serialize_tasks (Eager.working_from 0 bs) now [] in
  (forall i w,
     run.2 !! i = Some w ->
     Eager.window_task w = i /\ (now <= Eager.started_at w <= Eager.ended_at w)%nat)
  /\ (forall i j wi wj,
        run.2 !! i = Some wi -> run.2 !! j = Some wj -> (i < j)%nat ->
        (Eager.ended_at wi <= Eager.started_at wj)%nat)
  /\ (forall rs finish,
        Eager.all_fulfil bs now rs finish ->
        run.1 = Eager.mkPromise finish (Fulfilled rs)
        /\ length run.2 = length bs).
Proof.
  cbv zeta. rewrite eager_serialize_tasks.
  pose proof (in_turn_window bs 0 now) as Hwin.
  pose proof (in_turn_no_overlap bs 0 now) as Hno.
  pose proof (in_turn_all_fulfil bs 0 now) as Hall.
  destruct (Eager.in_turn 0 bs now) as [[instant o] windows]. simpl in *.
  split; [|split].
  - intros i w Hw. destruct (Hwin i w Hw) as (Ht & Hs & He). lia.
  - exact Hno.
  - intros rs finish Hf. destruct (Hall rs finish Hf) as [[= -> ->] Hlen]. done.
Qed.

Lemma serialize_tasks_one_at_a_time_witness :
  (Eager.serialize_tasks
     (Eager.working_from 0 [Eager.ok_after 5 1; Eager.ok_after 1 2; Eager.ok_after 3 3])
     10%nat []).1
  = Eager.mkPromise 19 (Fulfilled [1; 2; 3])
  /\ length (Eager.serialize_tasks
               (Eager.working_from 0
                  [Eager.ok_after 5 1; Eager.ok_after 1 2; Eager.ok_after 3 3])
               10%nat []).2
     = length [Eager.ok_after 5 1; Eager.ok_after 1 2; Eager.ok_after 3 3].
Proof.
  apply (proj2 (proj2 (serialize_tasks_one_at_a_time
                         [Eager.ok_after 5 1; Eager.ok_after 1 2; Eager.ok_after 3 3] 10%nat))
           [1; 2; 3] 19%nat).
  repeat econstructor.
Defined.

(** The windows of the example of the specification: delays of 5, 1 and 3
    ticks from the instant 10. *)
Example serialize_tasks_windows :
  (Eager.serialize_tasks
     (Eager.working_from 0 [Eager.ok_after 5 1; Eager.ok_after 1 2; Eager.ok_after 3 3])
     10%nat []).2
  = [Eager.mkWindow 0 10 15; Eager.mkWindow 1 15 16; Eager.mkWindow 2 16 19].
Proof. reflexivity. Qed.

(** Nothing in this reading of promises keeps tasks apart: two tasks called
    in a row start at the same instant, and their windows overlap. *)
Example two_calls_in_a_row_overlap :
  (Eager.bind (Eager.working 0 (Eager.ok_after 5 1) tt)
     (fun first => Eager.bind (Eager.working 1 (Eager.ok_after 1 2) tt)
        (fun second => Eager.resolve [first; second])) 10%nat []).2
  = [Eager.mkWindow 0 10 15; Eager.mkWindow 1 10 11].
Proof. reflexivity. Qed.

(* ===================================================================== *)
(** ** The parameter grid                                                 *)
(* ===================================================================== *)

Lemma inject_Z_nonzero (z : Z) : z <> 0 -> ~ (inject_Z z == 0)%Q.
Proof. intros Hz Heq. apply Hz. by apply inject_Z_injective. Qed.

Lemma Qtrunc_nonneg (q : Q) : (0 <= q)%Q -> Qtrunc q = Qfloor q.
Proof.
  destruct q as [n d]. unfold Qle, Qtrunc, Qfloor. simpl. intros Hn.
  apply Z.quot_div_nonneg; lia.
Qed.

Lemma index_over_ratio (lomax incr : Z) (i : nat) :
  0 < lomax -> 0 < incr ->
  (inject_Z (Z.of_nat i) / (inject_Z lomax / inject_Z incr)
   == inject_Z (Z.of_nat i * incr) / inject_Z lomax)%Q.
Proof.
  intros Hl Hc. rewrite inject_Z_mult. field.
  split; apply inject_Z_nonzero; lia.
Qed.

Lemma index_over_ratio_nonneg (lomax incr : Z) (i : nat) :
  0 < lomax -> 0 < incr ->
  (0 <= inject_Z (Z.of_nat i) / (inject_Z lomax / inject_Z incr))%Q.
Proof.
  intros Hl Hc. unfold Qdiv.
  apply Qmult_le_0_compat; [rewrite <- (Zle_Qle 0); lia|].
  apply Qinv_le_0_compat, Qmult_le_0_compat; [rewrite <- (Zle_Qle 0); lia|].
  apply Qinv_le_0_compat. rewrite <- (Zle_Qle 0). lia.
Qed.

(** In exact arithmetic the external symbol count of line 150 is the
    integer [(i * incr / lomax + 1) * incr]. *)
Lemma num_external_at_integral (lomax incr : Z) (i : nat) :
  0 < lomax -> 0 < incr ->
  (num_external_at lomax incr i
   == inject_Z ((Z.of_nat i * incr / lomax + 1) * incr))%Q.
Proof.
  intros Hl Hc. unfold num_external_at.
  rewrite (Qfloor_comp _ _ (index_over_ratio lomax incr i Hl Hc)), <- Zdiv_Qdiv.
  rewrite inject_Z_mult, inject_Z_plus. reflexivity.
Qed.

(** In exact arithmetic the linkonce symbol count of line 151 is the
    integer [(i * incr) mod lomax + incr]. *)
Lemma num_linkonce_at_integral (lomax incr : Z) (i : nat) :
  0 < lomax -> 0 < incr ->
  (num_linkonce_at lomax incr i
   == inject_Z ((Z.of_nat i * incr) mod lomax + incr))%Q.
Proof.
  intros Hl Hc. unfold num_linkonce_at, js_rem.
  rewrite (Qtrunc_nonneg _ (index_over_ratio_nonneg lomax incr i Hl Hc)).
  rewrite (Qfloor_comp _ _ (index_over_ratio lomax incr i Hl Hc)), <- Zdiv_Qdiv.
  rewrite Z.mod_eq by lia.
  rewrite inject_Z_plus. unfold Z.sub. rewrite inject_Z_plus, inject_Z_opp.
  rewrite !inject_Z_mult. field. apply inject_Z_nonzero. lia.
Qed.

(** The grid point at index [i], in integers. *)
Lemma grid_point_exact (lomax incr : Z) (i : nat) :
  0 < lomax -> 0 < incr ->
  grid_point lomax incr i
  = ((Z.of_nat i * incr / lomax + 1) * incr, (Z.of_nat i * incr) mod lomax + incr).
Proof.
  intros Hl Hc. unfold grid_point.
  rewrite (Qfloor_comp _ _ (num_external_at_integral lomax incr i Hl Hc)).
  rewrite (Qfloor_comp _ _ (num_linkonce_at_integral lomax incr i Hl Hc)).
  by rewrite !Qfloor_Z.
Qed.

Lemma sweep_length_exact (lomax extmax incr : Z) :
  incr <> 0 ->
  sweep_length lomax extmax incr = Some (lomax * extmax / (incr * incr)).
Proof.
  intros Hc. unfold sweep_length.
  destruct (Z.eqb_spec (incr * incr) 0) as [Hz|_]; [lia|].
  by rewrite <- Zdiv_Qdiv.
Qed.

(** What does hold of small maxima: the grid is empty when the product of
    the two maxima is below the square of the increment, as when both maxima
    are below the increment; the square is below 2^53, where the program's
    products are exact. *)
Lemma grid_empty_below_square (lomax extmax incr : Z) :
  0 < incr -> incr * incr < 2 ^ 53 -> 0 <= lomax * extmax < incr * incr ->
  grid lomax extmax incr = Some [].
Proof.
  intros Hc _ Hsmall. unfold grid.
  rewrite sweep_length_exact by lia.
  by rewrite Z.div_small.
Qed.

(** An index list of [m] blocks of [k] indices. *)
Lemma map_seq_blocks {A} (f : nat -> A) (k m : nat) :
  map f (seq 0 (m * k))
  = flat_map (fun a => map (fun b => f (a * k + b)%nat) (seq 0 k)) (seq 0 m).
Proof.
  induction m as [|m IH]; [reflexivity|].
  replace (Datatypes.S m * k)%nat with (m * k + k)%nat by lia.
  rewrite seq_app, map_app, IH, seq_S, flat_map_app. simpl.
  rewrite app_nil_r. f_equal.
  replace (seq (m * k) k) with (Nat.add (m * k) <$> seq 0 k)
    by (by rewrite fmap_add_seq, Nat.add_0_r).
  apply map_map.
Qed.

(** When the increment divides both maxima the grid is the one of two nested
    loops: the external count in the outer loop, the linkonce count in the
    inner loop. *)
Lemma grid_of_multiples (incr : Z) (k m : nat) :
  0 < incr -> (0 < k)%nat -> Z.of_nat (m * k) < 2 ^ 32 ->
  grid (Z.of_nat k * incr) (Z.of_nat m * incr) incr
  = Some (flat_map
            (fun a => map (fun b => ((Z.of_nat a + 1) * incr, (Z.of_nat b + 1) * incr))
                          (seq 0 k))
            (seq 0 m)).
Proof.
  intros Hc Hk Hsize. unfold grid. rewrite sweep_length_exact by lia.
  replace (Z.of_nat k * incr * (Z.of_nat m * incr))
    with (Z.of_nat (m * k) * (incr * incr)) by lia.
  rewrite Z.div_mul by lia. unfold Array.
  destruct (Z.leb_spec 0 (Z.of_nat (m * k))) as [_|]; [|lia].
  destruct (Z.ltb_spec (Z.of_nat (m * k)) (2 ^ 32)) as [_|]; [|lia].
  cbn [andb]. rewrite Nat2Z.id, map_seq_blocks. f_equal.
  apply flat_map_ext. intros a. apply map_ext_in. intros b Hb.
  apply in_seq in Hb. rewrite grid_point_exact by lia. f_equal.
  - f_equal. f_equal. rewrite Z.div_mul_cancel_r by lia.
    rewrite Nat2Z.inj_add, Nat2Z.inj_mul, Z.div_add_l by lia.
    rewrite Z.div_small by lia. lia.
  - rewrite Z.mul_mod_distr_r by lia.
    replace (Z.of_nat (a * k + b)) with (Z.of_nat b + Z.of_nat a * Z.of_nat k) by lia.
    rewrite Z.mod_add by lia. rewrite Z.mod_small by lia. lia.
Qed.

(** C4.  For external_max = 4000, linkonce_max = 4000 and increment = 2000
    the grid is exactly (2000,2000), (2000,4000), (4000,2000), (4000,4000),
    in that order: the list of two nested loops, the external count in the
    outer loop (it varies slowest) and the linkonce count in the inner loop
    (it varies fastest). *)
Theorem grid_4000_4000_2000 :
  grid 4000 4000 2000 = Some [(2000, 2000); (2000, 4000); (4000, 2000); (4000, 4000)]
  /\ grid 4000 4000 2000
     = Some (flat_map
               (fun external => map (fun linkonce => (external, linkonce)) [2000; 4000])
               [2000; 4000]).
Proof. split; vm_compute; reflexivity. Qed.

(** C3, evaluated on the code.  For external_max = 1000, linkonce_max = 5000
    and increment = 2000 the grid is not empty although external_max is
    below the increment: the length is the floor of 5000 * 1000 / 2000^2 =
    1.25, and the one grid point asks for 2000 external symbols, twice the
    maximum.  The same happens with the two maxima swapped. *)
Theorem grid_not_empty_below_increment :
  grid 5000 1000 2000 = Some [(2000, 2000)]
  /\ grid 1000 5000 2000 = Some [(2000, 2000)].
Proof. split; vm_compute; reflexivity. Qed.

(* ===================================================================== *)
(** ** The result aggregator                                              *)
(* ===================================================================== *)

Lemma string_app_assoc (a b c : string) : (a +:+ b) +:+ c = a +:+ (b +:+ c).
Proof.
  induction a as [|ch a IH]; [reflexivity|].
  change (String ch ((a +:+ b) +:+ c) = String ch (a +:+ (b +:+ c))).
  by rewrite IH.
Qed.

Lemma string_app_empty_r (a : string) : a +:+ "" = a.
Proof.
  induction a as [|ch a IH]; [reflexivity|].
  change (String ch (a +:+ "") = String ch a).
  by rewrite IH.
Qed.

Lemma concat_empty_cons (x : string) (xs : list string) :
  String.concat "" (x :: xs) = x +:+ String.concat "" xs.
Proof. destruct xs; simpl; [by rewrite string_app_empty_r|reflexivity]. Qed.

(** The reduction of line 164 appends the lines of the rows in order. *)
Lemma flatten_results_fold (results : list (list Z)) :
  forall acc,
    fold_left (fun acc inner => (acc +:+ join " " inner) +:+ LF) results acc
    = acc +:+ String.concat "" (map (fun inner => join " " inner +:+ LF) results).
Proof.
  induction results as [|inner results IH]; intros acc; cbn [fold_left map].
  - simpl. by rewrite string_app_empty_r.
  - by rewrite IH, concat_empty_cons, !string_app_assoc.
Qed.

Lemma flatten_results_lines (results : list (list Z)) :
  flatten_results results
  = String.concat "" (map (fun inner => join " " inner +:+ LF) results).
Proof. exact (flatten_results_fold results ""). Qed.

Lemma report_written (argv : Argv) (results : list (list Z)) (w : World) :
  written (report argv results w).2
  = written w ++ [(sink_of argv, "external linkonce time" +:+ LF +:+ flatten_results results)].
Proof.
  unfold report, sink_of.
  destruct (String.eqb (output argv) "-"); [reflexivity|].
  unfold writeFile. by destruct (write_error w (output argv)).
Qed.

(** C6.  The result aggregator hands to its destination a header line that
    names the three fields, followed by one line per result with the fields
    separated by single spaces, in the order of the results; for the results
    (2000,2000,150) and (2000,4000,300) the text is exactly
    "external linkonce time\n2000 2000 150\n2000 4000 300\n". *)
Theorem report_renders_table (argv : Argv) (w : World) :
  (forall results,
     written (report argv results w).2
     = written w ++
       [(sink_of argv,
         "external linkonce time" +:+ LF +:+
         String.concat ""
           (map (fun inner => String.concat " " (map number_to_string inner) +:+ LF)
                results))])
  /\ (forall external linkonce time : Z,
        join " " [external; linkonce; time]
        = number_to_string external +:+ " " +:+ number_to_string linkonce
          +:+ " " +:+ number_to_string time)
  /\ written (report argv [[2000; 2000; 150]; [2000; 4000; 300]] w).2
     = written w ++
       [(sink_of argv,
         "external linkonce time" +:+ LF +:+ "2000 2000 150" +:+ LF
         +:+ "2000 4000 300" +:+ LF)].
Proof.
  split; [|split].
  - intros results. by rewrite report_written, flatten_results_lines.
  - reflexivity.
  - by rewrite report_written.
Qed.

(* ===================================================================== *)
(** ** What each step leaves untouched                                    *)
(* ===================================================================== *)

Section Frame.
Context {X : Type} (proj : World -> X).

Lemma keeps_resolve {A} (a : A) : keeps proj (resolve a).
Proof. by intros w. Qed.

Lemma keeps_reject {A} (e : Error) : keeps proj (reject (A := A) e).
Proof. by intros w. Qed.

Lemma keeps_then {A B} (p : Async World A) (f : A -> Async World B) :
  keeps proj p -> (forall a, keeps proj (f a)) -> keeps proj (then_ p f).
Proof.
  intros Hp Hf w. unfold then_. specialize (Hp w).
  destruct (p w) as [[a|e] w1]; simpl in *; [|done].
  by rewrite Hf.
Qed.

Lemma keeps_catch {A} (p : Async World A) (h : Error -> Async World A) :
  keeps proj p -> (forall e, keeps proj (h e)) -> keeps proj (catch_ p h).
Proof.
  intros Hp Hh w. unfold catch_. specialize (Hp w).
  destruct (p w) as [[a|e] w1]; simpl in *; [done|].
  by rewrite Hh.
Qed.

Lemma keeps_forEach {A} (f : A -> Async World unit) (contents : list A) :
  (forall x, keeps proj (f x)) -> keeps proj (forEach f contents).
Proof.
  intros Hf. induction contents as [|x rest IH]; simpl.
  - apply keeps_resolve.
  - apply keeps_then; auto.
Qed.

Lemma keeps_mapLimit {A B} (coll : list A) (limit : nat) (iteratee : A -> Async World B) :
  (forall x, keeps proj (iteratee x)) -> keeps proj (mapLimit coll limit iteratee).
Proof.
  intros Hf. induction coll as [|x rest IH]; simpl.
  - apply keeps_resolve.
  - apply keeps_then; [auto|]. intros y.
    apply keeps_then; [auto|]. intros ys. apply keeps_resolve.
Qed.

Lemma keeps_run_serial {R} (tasks : list (Task (W := World) R)) :
  (forall item, item ∈ tasks -> keeps proj (item tt)) -> keeps proj (run_serial tasks).
Proof.
  induction tasks as [|item rest IH]; intros Hall w; simpl; [done|].
  pose proof (Hall item (list_elem_of_here _ _) w) as Hitem.
  destruct (item tt w) as [[r|e] w1]; simpl in *; [|done].
  assert (keeps proj (run_serial rest)) as Hrest.
  { apply IH. intros item' Hin. apply Hall. by apply list_elem_of_further. }
  specialize (Hrest w1).
  destruct (run_serial rest w1) as [[rs|e] w2]; simpl in *; congruence.
Qed.

Lemma keeps_serialize_tasks {R} (tasks : list (Task (W := World) R)) :
  (forall item, item ∈ tasks -> keeps proj (item tt)) -> keeps proj (serialize_tasks tasks).
Proof.
  intros Hall w. rewrite serialize_tasks_run_serial. by apply keeps_run_serial.
Qed.

Lemma keeps_glob (p : Pattern) : keeps proj (glob p).
Proof. by intros w. Qed.

Lemma keeps_stat (path : string) : keeps proj (stat path).
Proof. intros w. unfold stat. by destruct (files w !! path). Qed.

Lemma keeps_readdir (path : string) : keeps proj (readdir path).
Proof. intros w. unfold readdir. by destruct (files w !! path) as [[|entries]|]. Qed.

Lemma keeps_check_work_directory (work_dir : string) (force : bool) :
  keeps proj (check_work_directory work_dir force).
Proof.
  unfold check_work_directory. apply keeps_then.
  - apply keeps_then; [apply keeps_stat|]. intros stats.
    destruct (negb (isDirectory stats)); [apply keeps_reject|apply keeps_readdir].
  - intros names.
    destruct ((0 <? length names)%nat && negb force);
      [apply keeps_reject|apply keeps_resolve].
Qed.

End Frame.

(** One step of a proof that a chain of promises keeps a component. *)
Ltac keeps_step :=
  first [ apply keeps_resolve | apply keeps_reject | apply keeps_glob
        | apply keeps_stat | apply keeps_readdir | apply keeps_check_work_directory
        | apply keeps_then | apply keeps_catch | apply keeps_forEach
        | apply keeps_mapLimit ];
  intros.

Section FrameOfTheFileSystem.
Context {X : Type} (proj : World -> X) (Hblind : blind_to_files proj).

Lemma keeps_unlinkSync (file : Path) : keeps proj (unlinkSync file).
Proof.
  intros w. unfold unlinkSync.
  destruct (files w !! file.1) as [[|entries]|]; [done| |done].
  destruct (entries !! file.2) as [[|]|]; [|done|done].
  destruct (refuses w (Unlink file)); [done|apply Hblind].
Qed.

Lemma keeps_clean_all (work_dir repo : string) : keeps proj (clean_all work_dir repo).
Proof.
  assert (forall p, keeps proj
            (then_ (glob p) (fun contents => forEach (fun file => unlinkSync file) contents)))
    as Hclean.
  { intros p. apply keeps_then; [apply keeps_glob|]. intros contents.
    apply keeps_forEach. intros file. apply keeps_unlinkSync. }
  unfold clean_all. apply keeps_then; [apply keeps_then|]; intros; apply Hclean.
Qed.

End FrameOfTheFileSystem.

(* ===================================================================== *)
(** ** The sweep and the output                                           *)
(* ===================================================================== *)




Lemma main_when_sweep_rejected (argv : Argv) (w w1 : World) (err : Error) :
  sweep argv w = (Rejected err, w1) ->
  main argv w
  = set_exitCode 1 (add_diagnostic (if debug argv then Trace err else Message err) w1).
Proof. intros Hsweep. unfold main, catch_, then_. by rewrite Hsweep. Qed.

Lemma main_when_sweep_fulfilled (argv : Argv) (w w1 : World) (results : list (list Z)) :
  sweep argv w = (Fulfilled results, w1) ->
  written (main argv w)
  = written w1 ++
    [(sink_of argv, "external linkonce time" +:+ LF +:+ flatten_results results)].
Proof.
  intros Hsweep. unfold main, catch_, then_. rewrite Hsweep.
  pose proof (report_written argv results w1) as Hreport.
  destruct (report argv results w1) as [[[]|err] w2]; simpl in *; congruence.
Qed.


(* ===================================================================== *)
(** ** The validation of the work directory                               *)
(* ===================================================================== *)

Lemma check_work_directory_world (work_dir : string) (force : bool) (w : World) :
  (check_work_directory work_dir force w).2 = w.
Proof. apply (keeps_check_work_directory id work_dir force w). Qed.

Lemma main_after_failed_validation (argv : Argv) (w : World) (err : Error) :
  check_work_directory (workDir argv) (force argv) w = (Rejected err, w) ->
  main argv w
  = set_exitCode 1 (add_diagnostic (if debug argv then Trace err else Message err) w).
Proof.
  intros Hcheck. unfold main, catch_, sweep.
  unfold then_ at 1. unfold then_ at 1. by rewrite Hcheck.
Qed.

(** C7.  The validation fails before any run starts whenever the work
    directory does not exist, is not a directory, or is not empty and
    [--force] was not given: the promise is rejected, the world is as it
    was, and the driver only prints a diagnostic and sets its exit code, so
    that no subprocess is started and no task runs.  When the directory is
    an empty directory, or a directory and [--force] was given, the
    validation fulfils and leaves the world as it was. *)
Theorem validation_before_any_run (argv : Argv) (w : World) :
  ((files w !! workDir argv = None
    \/ files w !! workDir argv = Some NFile
    \/ exists entries,
         files w !! workDir argv = Some (NDir entries)
         /\ entries <> ∅ /\ force argv = false) ->
   exists err,
     check_work_directory (workDir argv) (force argv) w = (Rejected err, w)
     /\ main argv w
        = set_exitCode 1
            (add_diagnostic (if debug argv then Trace err else Message err) w)
     /\ spawned (main argv w) = spawned w
     /\ files (main argv w) = files w
     /\ written (main argv w) = written w)
  /\ ((exists entries,
         files w !! workDir argv = Some (NDir entries)
         /\ (entries = ∅ \/ force argv = true)) ->
      check_work_directory (workDir argv) (force argv) w = (Fulfilled true, w)).
Proof.
  split.
  - intros Hbad.
    assert (exists err,
               check_work_directory (workDir argv) (force argv) w = (Rejected err, w))
      as [err Hcheck].
    { unfold check_work_directory, then_, stat, readdir.
      destruct Hbad as [Hf|[Hf|(entries & Hf & Hne & ->)]];
        rewrite Hf; simpl; eauto.
      rewrite Hf.
      destruct (map_to_list entries) as [|kv l] eqn:Hl; simpl; eauto.
      by apply map_to_list_empty_iff in Hl. }
    exists err. split; [done|].
    rewrite (main_after_failed_validation argv w err Hcheck). done.
  - intros (entries & Hdir & Hok).
    unfold check_work_directory, then_, stat, readdir. rewrite Hdir. simpl.
    rewrite Hdir. destruct Hok as [->| ->].
    + by rewrite map_to_list_empty.
    + by rewrite andb_false_r.
Qed.

Lemma validation_before_any_run_witness :
  (exists err,
     check_work_directory (workDir default_argv) (force default_argv) (fresh_world ∅)
     = (Rejected err, fresh_world ∅)
     /\ main default_argv (fresh_world ∅)
        = set_exitCode 1
            (add_diagnostic (if debug default_argv then Trace err else Message err)
                            (fresh_world ∅))
     /\ spawned (main default_argv (fresh_world ∅)) = spawned (fresh_world ∅)
     /\ files (main default_argv (fresh_world ∅)) = files (fresh_world ∅)
     /\ written (main default_argv (fresh_world ∅)) = written (fresh_world ∅))
  /\ check_work_directory (workDir default_argv) (force default_argv)
       (fresh_world (<["/tmp/work" := NDir ∅]> ∅))
     = (Fulfilled true, fresh_world (<["/tmp/work" := NDir ∅]> ∅)).
Proof.
  split.
  - apply (proj1 (validation_before_any_run default_argv (fresh_world ∅))).
    left. reflexivity.
  - apply (proj2 (validation_before_any_run default_argv
                    (fresh_world (<["/tmp/work" := NDir ∅]> ∅)))).
    exists ∅. split; [reflexivity|left; reflexivity].
Defined.

(** C10.  On an empty list of tasks the serial task runner fulfils with the
    empty array of results, and when the grid is empty (and the validation
    passed) the driver still hands one text to its output: exactly the
    header line, with no row. *)
Theorem empty_grid_writes_header_only (argv : Argv) (w : World) :
  (check_work_directory (workDir argv) (force argv) w).1 = Fulfilled true ->
  grid (linkonce argv) (external argv) (increment argv) = Some [] ->
  serialize_tasks (map (run_task argv) []) w = (Fulfilled [], w)
  /\ sweep argv w = (Fulfilled [], w)
  /\ written (main argv w)
     = written w ++ [(sink_of argv, "external linkonce time" +:+ LF)].
Proof.
  intros Hcheck Hgrid.
  assert (sweep argv w = (Fulfilled [], w)) as Hsweep.
  { unfold sweep, then_.
    pose proof (check_work_directory_world (workDir argv) (force argv) w) as Hw.
    destruct (check_work_directory (workDir argv) (force argv) w) as [o w1].
    simpl in *. subst. by rewrite Hgrid. }
  split; [reflexivity|split; [exact Hsweep|]].
  apply (main_when_sweep_fulfilled argv w w [] Hsweep).
Qed.

Lemma empty_grid_writes_header_only_witness :
  serialize_tasks (map (run_task small_argv) [])
    (fresh_world (<["/tmp/work" := NDir ∅]> ∅))
  = (Fulfilled [], fresh_world (<["/tmp/work" := NDir ∅]> ∅))
  /\ sweep small_argv (fresh_world (<["/tmp/work" := NDir ∅]> ∅))
     = (Fulfilled [], fresh_world (<["/tmp/work" := NDir ∅]> ∅))
  /\ written (main small_argv (fresh_world (<["/tmp/work" := NDir ∅]> ∅)))
     = written (fresh_world (<["/tmp/work" := NDir ∅]> ∅))
       ++ [(sink_of small_argv, "external linkonce time" +:+ LF)].
Proof.
  apply (empty_grid_writes_header_only small_argv
           (fresh_world (<["/tmp/work" := NDir ∅]> ∅))).
  - vm_compute. reflexivity.
  - vm_compute. reflexivity.
Defined.

(* ===================================================================== *)
(** ** The single run                                                     *)
(* ===================================================================== *)

Lemma exec_spawned (inv : Invocation) (w : World) :
  spawned (exec inv w).2 = spawned w ++ [inv].
Proof.
  unfold exec.
  by destruct (subprocess w inv (files w) (clock w)) as [[fs now] success].
Qed.

(** A single run, step by step: the cleaning, the generator, then the repo
    linker on the ticket files found, timed by the clock. *)
Lemma single_run_steps
    (bin_dir work_dir : string) (num_modules num_external num_linkonce : Z) (w : World) :
  single_run bin_dir work_dir num_modules num_external num_linkonce w
  = match clean_all work_dir repo_name w with
    | (Fulfilled _, w1) =>
        match exec (Spawn RldGen bin_dir work_dir
                          [num_modules; num_external; num_linkonce] [] None) w1 with
        | (Fulfilled _, w2) =>
            match exec (Spawn Rld bin_dir work_dir [] (ticket_files_in work_dir w2)
                              (Some (work_dir, "a.out"))) w2 with
            | (Fulfilled _, w3) => (Fulfilled (clock w3 - clock w2), w3)
            | (Rejected err, w3) => (Rejected err, w3)
            end
        | (Rejected err, w2) => (Rejected err, w2)
        end
    | (Rejected err, w1) => (Rejected err, w1)
    end.
Proof.
  unfold single_run, is_repo_linker, then_.
  destruct (clean_all work_dir repo_name w) as [[[]|err] w1]; [|reflexivity].
  cbn [rld_gen rld runner].
  destruct (exec _ w1) as [[[]|err] w2]; [|reflexivity].
  unfold glob, resolve, catch_, reject, Date_now, ticket_files_in. cbn [fst snd].
  by destruct (exec _ w2) as [[[]|err] w3].
Qed.

(** C9.  The linker-selection flag is the constant [true], so whatever the
    configuration a single run takes the branch of the repo linker: the only
    subprocesses it starts are the generator and the repo linker, never the
    converter [repo2obj] nor the traditional linker [lld], and when the
    cleaning and the generation succeed the repo linker is given exactly the
    ticket files found in the work directory. *)
Theorem single_run_takes_repo_linker_branch
    (bin_dir work_dir : string) (num_modules num_external num_linkonce : Z) (w : World) :
  is_repo_linker = true
  /\ (exists invs,
        spawned (single_run bin_dir work_dir num_modules num_external num_linkonce w).2
        = spawned w ++ invs
        /\ Forall (fun inv => inv_tool inv <> Repo2obj /\ inv_tool inv <> Lld) invs)
  /\ (forall w1 w2,
        clean_all work_dir repo_name w = (Fulfilled tt, w1) ->
        rld_gen (runner bin_dir work_dir repo_name verbose)
                num_modules num_external num_linkonce w1 = (Fulfilled tt, w2) ->
        spawned (single_run bin_dir work_dir num_modules num_external num_linkonce w).2
        = spawned w ++
          [Spawn RldGen bin_dir work_dir [num_modules; num_external; num_linkonce] [] None;
           Spawn Rld bin_dir work_dir [] (ticket_files_in work_dir w2)
                 (Some (work_dir, "a.out"))]).
Proof.
  split; [reflexivity|].
  rewrite single_run_steps.
  pose proof (keeps_clean_all spawned (fun _ _ => eq_refl) work_dir repo_name w) as Hclean.
  destruct (clean_all work_dir repo_name w) as [[[]|err] w1]; simpl in Hclean.
  2: { split; [|intros w1' w2 [=]].
       exists []. simpl. by rewrite Hclean, app_nil_r. }
  set (gen := Spawn RldGen bin_dir work_dir [num_modules; num_external; num_linkonce] [] None).
  pose proof (exec_spawned gen w1) as Hgen.
  destruct (exec gen w1) as [[[]|err] w2] eqn:Hexec; simpl in Hgen.
  2: { split.
       2: { intros w1' w2' [= <-] Hg.
            change (exec gen w1 = (Fulfilled tt, w2')) in Hg. congruence. }
       exists [gen]. simpl. rewrite Hgen, Hclean.
       split; [done|]. repeat constructor; simpl; congruence. }
  set (link := Spawn Rld bin_dir work_dir [] (ticket_files_in work_dir w2)
                     (Some (work_dir, "a.out"))).
  pose proof (exec_spawned link w2) as Hlink.
  assert (spawned
            match exec link w2 with
            | (Fulfilled _, w3) => (Fulfilled (clock w3 - clock w2), w3)
            | (Rejected err, w3) => (Rejected err, w3)
            end.2 = spawned w ++ [gen; link]) as Hrun.
  { destruct (exec link w2) as [[[]|err] w3]; simpl in *;
      rewrite Hlink, Hgen, Hclean, <- app_assoc; reflexivity. }
  split.
  - exists [gen; link]. split; [exact Hrun|].
    repeat constructor; simpl; congruence.
  - intros w1' w2' [= <-] Hg.
    change (exec gen w1 = (Fulfilled tt, w2')) in Hg.
    rewrite Hexec in Hg. injection Hg as <-. exact Hrun.
Qed.

Lemma single_run_takes_repo_linker_branch_witness :
  spawned (single_run "/usr/bin" "/tmp/work" 10 2000 2000
             (fresh_world (<["/tmp/work" := NDir stale_entries]> ∅))).2
  = [Spawn RldGen "/usr/bin" "/tmp/work" [10; 2000; 2000] [] None;
     Spawn Rld "/usr/bin" "/tmp/work" []
           [("/tmp/work", "t0.o"); ("/tmp/work", "t1.o")]
           (Some ("/tmp/work", "a.out"))].
Proof.
  pose (w0 := fresh_world (<["/tmp/work" := NDir stale_entries]> ∅)).
  pose (w1 := (clean_all "/tmp/work" repo_name w0).2).
  pose (w2 := (rld_gen (runner "/usr/bin" "/tmp/work" repo_name verbose) 10 2000 2000 w1).2).
  refine (eq_trans
            (proj2 (proj2 (single_run_takes_repo_linker_branch
                             "/usr/bin" "/tmp/work" 10 2000 2000 w0)) w1 w2 _ _) _).
  - vm_compute. reflexivity.
  - vm_compute. reflexivity.
  - vm_compute. reflexivity.
Defined.

(* ===================================================================== *)
(** ** The workspace cleaner                                              *)
(* ===================================================================== *)




Lemma entries_of_insert (fs : gmap string Node) (dir : string) (entries : gmap string Kind) :
  entries_of (<[dir := NDir entries]> fs) dir = entries.
Proof. unfold entries_of. by rewrite lookup_insert_eq. Qed.

(** One call of [fs.unlinkSync] on an existing entry. *)
Lemma unlinkSync_existing (dir name : string) (w : World) (kind : Kind) :
  entries_of (files w) dir !! name = Some kind ->
  unlinkSync (dir, name) w
  = match unlink_error w (dir, name) with
    | Some err => (Rejected err, w)
    | None =>
        (Fulfilled tt,
         set_files (<[dir := NDir (delete name (entries_of (files w) dir))]> (files w)) w)
    end.
Proof.
  unfold unlinkSync, unlink_error, entries_of. cbn [fst snd].
  destruct (files w !! dir) as [[|entries]|]; [done| |done].
  intros ->. by destruct kind.
Qed.

(** How the unlinking of existing entries of one directory ends: well when
    nothing blocks any of them, and otherwise on the first that is
    blocked. *)
Lemma forEach_unlinkSync_outcome (dir : string) (names : list string) :
  forall w o w',
    NoDup names ->
    (forall name, name ∈ names -> is_Some (entries_of (files w) dir !! name)) ->
    forEach (fun file => unlinkSync file) (map (fun name => (dir, name)) names) w = (o, w') ->
    match o with
    | Fulfilled _ =>
        (forall name, name ∈ names -> unlink_error w (dir, name) = None)
        /\ (forall name,
              entries_of (files w') dir !! name
              = if decide (name ∈ names) then None else entries_of (files w) dir !! name)
        /\ (names = [] -> w' = w)
    | Rejected err =>
        exists name, name ∈ names /\ unlink_error w (dir, name) = Some err
    end.
Proof.
  induction names as [|n names IH]; intros w o w' Hnodup Hsome Hrun.
  - injection Hrun as <- <-. split; [|split; [|done]].
    + intros name Hin. by apply elem_of_nil in Hin.
    + intros name. destruct (decide (name ∈ [])) as [Hin|_]; [|done].
      by apply elem_of_nil in Hin.
  - apply NoDup_cons in Hnodup as [Hnotin Hnodup].
    destruct (Hsome n (list_elem_of_here _ _)) as [kind Hn].
    cbn [map forEach] in Hrun. unfold then_ at 1 in Hrun.
    rewrite (unlinkSync_existing dir n w kind Hn) in Hrun.
    destruct (unlink_error w (dir, n)) as [err|] eqn:Herr.
    { injection Hrun as <- <-. exists n. split; [by left|done]. }
    set (entries := entries_of (files w) dir) in *.
    set (w1 := set_files (<[dir := NDir (delete n entries)]> (files w)) w) in Hrun.
    assert (entries_of (files w1) dir = delete n entries) as Hw1
      by apply entries_of_insert.
    assert (forall name, name ∈ names ->
              entries_of (files w1) dir !! name = entries !! name) as Hrest.
    { intros name Hin. rewrite Hw1. apply lookup_delete_ne. by intros ->. }
    assert (forall name, name ∈ names ->
              unlink_error w1 (dir, name) = unlink_error w (dir, name)) as Herrs.
    { intros name Hin. unfold unlink_error. cbn [fst snd].
      fold entries. by rewrite (Hrest name Hin). }
    specialize (IH w1 o w' Hnodup).
    destruct o as [[]|err].
    + destruct IH as (Hnone & Hlookup & _); [|done|].
      { intros name Hin. rewrite Hrest by done. apply Hsome. by right. }
      split; [|split; [|done]].
      * intros name [->|Hin]%elem_of_cons; [done|].
        rewrite <- Herrs by done. by apply Hnone.
      * intros name. rewrite Hlookup, Hw1.
        destruct (decide (name = n)) as [->|Hne].
        -- rewrite lookup_delete_eq.
           destruct (decide (n ∈ names)); [|rewrite decide_True by left]; done.
        -- rewrite lookup_delete_ne by done.
           destruct (decide (name ∈ names)) as [Hin|Hnin].
           ++ by rewrite decide_True by (by right).
           ++ rewrite decide_False; [done|].
              intros [->|Hin]%elem_of_cons; done.
    + destruct IH as (name & Hin & Hblocked); [|done|].
      { intros name' Hin'. rewrite Hrest by done. apply Hsome. by right. }
      exists name. split; [by right|]. by rewrite <- Herrs.
Qed.




(** Unless something blocks an existing entry, the unlinking of existing
    entries ends well. *)
Lemma forEach_unlinkSync_fulfils (dir : string) (names : list string) (w : World) :
  NoDup names ->
  (forall name, name ∈ names -> is_Some (entries_of (files w) dir !! name)) ->
  (forall name, name ∈ names -> unlink_error w (dir, name) = None) ->
  exists w',
    forEach (fun file => unlinkSync file) (map (fun name => (dir, name)) names) w
    = (Fulfilled tt, w').
Proof.
  intros Hnodup Hsome Hnone.
  destruct (forEach _ _ w) as [[[]|err] w'] eqn:Hrun; [eauto|].
  destruct (forEach_unlinkSync_outcome dir names w _ _ Hnodup Hsome Hrun)
    as (name & Hin & Hb).
  by rewrite (Hnone name Hin) in Hb.
Qed.





(* ===================================================================== *)
(** ** The driver on examples                                             *)
(* ===================================================================== *)

(** The cleaner on a work directory with left-overs: only the foreign file
    stays. *)
Example clean_all_stale_directory :
  entries_of
    (files (clean_all "/tmp/work" repo_name
              (fresh_world (<["/tmp/work" := NDir stale_entries]> ∅))).2)
    "/tmp/work"
  = <["notes.txt" := File]> ∅.
Proof. vm_compute. reflexivity. Qed.

(** The cleaner stops on a directory that is named like a ticket file. *)
Example clean_all_on_directory_entry :
  (clean_all "/tmp/work" repo_name
     (fresh_world (<["/tmp/work" := NDir (<["odd.o" := Directory]> ∅)]> ∅))).1
  = Rejected (EISDIR "/tmp/work/odd.o").
Proof. vm_compute. reflexivity. Qed.

(** The cleaner stops on a file that the file system refuses to unlink. *)
Example clean_all_on_refused_unlink :
  (clean_all "/tmp/work" repo_name
     (guarded_world (<["/tmp/work" := NDir stale_entries]> ∅))).1
  = Rejected (EACCES "/tmp/work/t0.o").
Proof. vm_compute. reflexivity. Qed.

(** Glob characters in the work directory: the cleaner fulfils, leaves the
    directory it was given as it is and empties the one that the pattern
    matches. *)
Example clean_all_glob_characters :
  let run := clean_all "/tmp/work[1]" repo_name bracket_world in
  run.1 = Fulfilled tt
  /\ entries_of (files run.2) "/tmp/work[1]" = <["t0.o" := File]> ∅
  /\ entries_of (files run.2) "/tmp/work1" = ∅.
Proof. vm_compute. repeat split; reflexivity. Qed.

(** An output file below a missing directory: the sweep runs, the write
    fails, the failure is reported and the exit code is 1. *)
Example main_output_below_missing_directory :
  let w := main missing_parent_argv (guarded_world (<["/tmp/work" := NDir ∅]> ∅)) in
  map inv_tool (spawned w) = [RldGen; Rld]
  /\ diagnostics w = [Message (ENOENT "/no/such/dir/out.txt")]
  /\ exitCode w = 1.
Proof. vm_compute. repeat split; reflexivity. Qed.

(** One grid point against programs that always succeed: the generator and
    the repo linker are started once each, and the table has the header and
    one row with the 7 ms of the link step. *)
Example main_one_grid_point :
  let w := main one_point_argv (fresh_world (<["/tmp/work" := NDir ∅]> ∅)) in
  written w = [(Stdout, "external linkonce time" +:+ LF +:+ "2000 2000 7" +:+ LF)]
  /\ map inv_tool (spawned w) = [RldGen; Rld]
  /\ exitCode w = 0.
Proof. vm_compute. repeat split; reflexivity. Qed.

(** A generator that fails: nothing is written and the exit code is 1. *)
Example main_failing_generator :
  let w := main default_argv (hostile_world (<["/tmp/work" := NDir ∅]> ∅)) in
  written w = [] /\ map inv_tool (spawned w) = [RldGen] /\ exitCode w = 1.
Proof. vm_compute. repeat split; reflexivity. Qed.

(** With the external maximum below the increment the driver still runs the
    generator once, for 2000 external symbols, and writes one row. *)
Example main_external_below_increment :
  let w := main below_increment_argv (fresh_world (<["/tmp/work" := NDir ∅]> ∅)) in
  written w = [(Stdout, "external linkonce time" +:+ LF +:+ "2000 2000 7" +:+ LF)]
  /\ map inv_numbers (spawned w) = [[10; 2000; 2000]; []].
Proof. vm_compute. repeat split; reflexivity. Qed.

(* ===================================================================== *)
(** ** More on the serial task runner                                     *)
(* ===================================================================== *)

Section RunnerLaws.
Context {W R : Type}.
Implicit Types (tasks : list (Task (W := W) R)).

Lemma run_serial_app tasks1 tasks2 w :
  run_serial (tasks1 ++ tasks2) w
  = match run_serial tasks1 w with
    | (Fulfilled rs1, w1) =>
        match run_serial tasks2 w1 with
        | (Fulfilled rs2, w2) => (Fulfilled (rs1 ++ rs2), w2)
        | (Rejected e, w2) => (Rejected e, w2)
        end
    | (Rejected e, w1) => (Rejected e, w1)
    end.
Proof.
  revert w. induction tasks1 as [|item rest IH]; intros w; simpl.
  - unfold resolve. by destruct (run_serial tasks2 w) as [[rs2|e] w2].
  - destruct (item tt w) as [[r|e] w1]; [|reflexivity].
    rewrite IH. destruct (run_serial rest w1) as [[rs1|e] w2]; [|reflexivity].
    by destruct (run_serial tasks2 w2) as [[rs2|e] w3].
Qed.

Lemma run_serial_length tasks :
  forall w rs w', run_serial tasks w = (Fulfilled rs, w') -> length rs = length tasks.
Proof.
  induction tasks as [|item rest IH]; intros w rs w' Hrun; simpl in Hrun.
  - by injection Hrun as <- <-.
  - destruct (item tt w) as [[r|e] w1]; [|discriminate].
    destruct (run_serial rest w1) as [[rs1|e] w2] eqn:Hrest; [|discriminate].
    injection Hrun as <- <-. simpl. f_equal. by eapply IH.
Qed.

Lemma run_serial_rejected tasks :
  forall w e w',
    run_serial tasks w = (Rejected e, w') ->
    exists before item after rs w1,
      tasks = before ++ item :: after
      /\ run_serial before w = (Fulfilled rs, w1)
      /\ item tt w1 = (Rejected e, w').
Proof.
  induction tasks as [|item rest IH]; intros w e w' Hrun; simpl in Hrun.
  - discriminate.
  - destruct (item tt w) as [[r|e0] w1] eqn:Hitem.
    + destruct (run_serial rest w1) as [[rs1|e1] w2] eqn:Hrest; [discriminate|].
      injection Hrun as <- <-.
      destruct (IH w1 e1 w2 Hrest) as (before & item' & after & rs & w3 & -> & Hb & Hi).
      exists (item :: before), item', after, (r :: rs), w3.
      split; [done|]. split; [|done]. simpl. by rewrite Hitem, Hb.
    + injection Hrun as <- <-.
      exists [], item, rest, [], w. by split.
Qed.

(** X1.  Whatever the tasks do to the world, the promise chain that
    [serialize_tasks] builds with [reduce] behaves as running the tasks one
    after the other, each from the world its predecessor left, and stopping
    at the first rejection. *)
Theorem serialize_tasks_is_sequential tasks w :
  serialize_tasks tasks w = run_serial tasks w.
Proof. apply serialize_tasks_run_serial. Qed.

(** X2.  Running the concatenation of two task lists is running the first
    list, then the second from the world the first left, and appending the
    results; a rejection in the first list skips the second. *)
Theorem serialize_tasks_app tasks1 tasks2 w :
  serialize_tasks (tasks1 ++ tasks2) w
  = then_ (serialize_tasks tasks1)
          (fun rs1 => then_ (serialize_tasks tasks2) (fun rs2 => resolve (rs1 ++ rs2))) w.
Proof.
  unfold then_, resolve. rewrite !serialize_tasks_run_serial, run_serial_app.
  destruct (run_serial tasks1 w) as [[rs1|e] w1]; [|reflexivity].
  by rewrite serialize_tasks_run_serial.
Qed.

(** X3.  When the runner fulfils, it has one result per task. *)
Theorem serialize_tasks_one_result_per_task tasks w rs w' :
  serialize_tasks tasks w = (Fulfilled rs, w') -> length rs = length tasks.
Proof. rewrite serialize_tasks_run_serial. apply run_serial_length. Qed.

(** X4.  When the runner rejects, the reason is the one of some task of the
    list, every task before it fulfilled, that task ran on the world they
    left, and the world of the runner is the one that task left: nothing ran
    after it. *)
Theorem serialize_tasks_rejection_origin tasks w e w' :
  serialize_tasks tasks w = (Rejected e, w') ->
  exists before item after rs w1,
    tasks = before ++ item :: after
    /\ serialize_tasks before w = (Fulfilled rs, w1)
    /\ item tt w1 = (Rejected e, w').
Proof.
  rewrite serialize_tasks_run_serial. intros Hrun.
  destruct (run_serial_rejected tasks w e w' Hrun)
    as (before & item & after & rs & w1 & Htasks & Hb & Hi).
  exists before, item, after, rs, w1. by rewrite serialize_tasks_run_serial.
Qed.

End RunnerLaws.

Lemma serialize_tasks_one_result_per_task_witness :
  length [1; 2; 3] = length (observed_from 0 [ok 1; ok 2; ok 3]).
Proof.
  apply (serialize_tasks_one_result_per_task
           (observed_from 0 [ok 1; ok 2; ok 3]) (0%nat, []) [1; 2; 3]
           (3%nat, windows 0 3)).
  reflexivity.
Defined.

Lemma serialize_tasks_rejection_origin_witness :
  exists before item after rs w1,
    observed_from 0 [ok 1; fail; ok 3] = before ++ item :: after
    /\ serialize_tasks before (0%nat, []) = (Fulfilled rs, w1)
    /\ item tt w1 = (Rejected (JsError "fail"), (2%nat, windows 0 2)).
Proof.
  apply (serialize_tasks_rejection_origin
           (observed_from 0 [ok 1; fail; ok 3]) (0%nat, []) (JsError "fail")
           (2%nat, windows 0 2)).
  reflexivity.
Defined.

(* ===================================================================== *)
(** ** More on the single run                                             *)
(* ===================================================================== *)

Lemma exec_rejected (inv : Invocation) (w w' : World) (err : Error) :
  exec inv w = (Rejected err, w') -> err = ToolFailed inv.
Proof.
  unfold exec.
  destruct (subprocess w inv (files w) (clock w)) as [[fs now] [|]]; congruence.
Qed.

(** X5.  The time a single run returns is the time of the link step alone:
    the clock when the repo linker has ended minus the clock when the
    generator had ended.  What the cleaning and the generation took is not
    counted. *)
Theorem single_run_times_the_link_step
    (bin_dir work_dir : string) (num_modules num_external num_linkonce : Z)
    (w : World) (time : Z) (w' : World) :
  single_run bin_dir work_dir num_modules num_external num_linkonce w
  = (Fulfilled time, w') ->
  exists w1 w2,
    clean_all work_dir repo_name w = (Fulfilled tt, w1)
    /\ exec (Spawn RldGen bin_dir work_dir
                   [num_modules; num_external; num_linkonce] [] None) w1
       = (Fulfilled tt, w2)
    /\ exec (Spawn Rld bin_dir work_dir [] (ticket_files_in work_dir w2)
                   (Some (work_dir, "a.out"))) w2
       = (Fulfilled tt, w')
    /\ time = clock w' - clock w2.
Proof.
  rewrite single_run_steps.
  destruct (clean_all work_dir repo_name w) as [[[]|err] w1] eqn:Hclean; [|discriminate].
  destruct (exec _ w1) as [[[]|err] w2] eqn:Hgen; [|discriminate].
  destruct (exec _ w2) as [[[]|err] w3] eqn:Hlink; [|discriminate].
  intros [= <- <-]. exists w1, w2. by rewrite Hgen, Hlink.
Qed.

Lemma single_run_times_the_link_step_witness :
  exists w1 w2,
    clean_all "/tmp/work" repo_name (fresh_world (<["/tmp/work" := NDir stale_entries]> ∅))
    = (Fulfilled tt, w1)
    /\ exec (Spawn RldGen "/usr/bin" "/tmp/work" [10; 2000; 2000] [] None) w1
       = (Fulfilled tt, w2)
    /\ exec (Spawn Rld "/usr/bin" "/tmp/work" [] (ticket_files_in "/tmp/work" w2)
                   (Some ("/tmp/work", "a.out"))) w2
       = (Fulfilled tt,
          (single_run "/usr/bin" "/tmp/work" 10 2000 2000
             (fresh_world (<["/tmp/work" := NDir stale_entries]> ∅))).2)
    /\ 7 = clock (single_run "/usr/bin" "/tmp/work" 10 2000 2000
                    (fresh_world (<["/tmp/work" := NDir stale_entries]> ∅))).2
           - clock w2.
Proof.
  apply (single_run_times_the_link_step "/usr/bin" "/tmp/work" 10 2000 2000
           (fresh_world (<["/tmp/work" := NDir stale_entries]> ∅)) 7).
  vm_compute. reflexivity.
Defined.

Lemma single_run_rejected
    (bin_dir work_dir : string) (num_modules num_external num_linkonce : Z)
    (w : World) (err : Error) (w' : World) :
  single_run bin_dir work_dir num_modules num_external num_linkonce w
  = (Rejected err, w') ->
  let gen := Spawn RldGen bin_dir work_dir
                   [num_modules; num_external; num_linkonce] [] None in
  (clean_all work_dir repo_name w = (Rejected err, w') /\ spawned w' = spawned w)
  \/ (err = ToolFailed gen /\ spawned w' = spawned w ++ [gen])
  \/ (exists tickets,
        let link := Spawn Rld bin_dir work_dir [] tickets (Some (work_dir, "a.out")) in
        err = ToolFailed link /\ spawned w' = spawned w ++ [gen; link]).
Proof.
  rewrite single_run_steps. intros Hrun gen.
  pose proof (keeps_clean_all spawned (fun _ _ => eq_refl) work_dir repo_name w) as Hclean.
  destruct (clean_all work_dir repo_name w) as [[[]|e1] w1] eqn:Hc; simpl in Hclean.
  2: { injection Hrun as <- <-. by left. }
  fold gen in Hrun. pose proof (exec_spawned gen w1) as Hgen.
  destruct (exec gen w1) as [[[]|e2] w2] eqn:Hg; simpl in Hgen.
  2: { injection Hrun as <- <-. right. left.
       apply exec_rejected in Hg as ->. by rewrite Hgen, Hclean. }
  set (link := Spawn Rld bin_dir work_dir [] (ticket_files_in work_dir w2)
                     (Some (work_dir, "a.out"))) in Hrun.
  pose proof (exec_spawned link w2) as Hlink.
  destruct (exec link w2) as [[[]|e3] w3] eqn:Hl; simpl in Hlink; [discriminate|].
  injection Hrun as <- <-. right. right. exists (ticket_files_in work_dir w2).
  apply exec_rejected in Hl as ->.
  by rewrite Hlink, Hgen, Hclean, <- app_assoc.
Qed.

(** X6.  When a single run fails, the failure is the one of the step that
    failed, unchanged, and the later steps were not taken: either the
    cleaner failed, with that very error, and no subprocess was started; or
    the generator failed, and the linker was never started; or the repo
    linker failed, after the generator. *)
Theorem single_run_failure_origin
    (bin_dir work_dir : string) (num_modules num_external num_linkonce : Z)
    (w : World) (err : Error) (w' : World) :
  single_run bin_dir work_dir num_modules num_external num_linkonce w
  = (Rejected err, w') ->
  let gen := Spawn RldGen bin_dir work_dir
                   [num_modules; num_external; num_linkonce] [] None in
  (clean_all work_dir repo_name w = (Rejected err, w') /\ spawned w' = spawned w)
  \/ (err = ToolFailed gen /\ spawned w' = spawned w ++ [gen])
  \/ (exists tickets,
        let link := Spawn Rld bin_dir work_dir [] tickets (Some (work_dir, "a.out")) in
        err = ToolFailed link /\ spawned w' = spawned w ++ [gen; link]).
Proof.
  apply single_run_rejected.
Qed.

Lemma single_run_failure_origin_witness :
  let gen := Spawn RldGen "/usr/bin" "/tmp/work" [10; 2000; 2000] [] None in
  let w := hostile_world (<["/tmp/work" := NDir ∅]> ∅) in
  let w' := (single_run "/usr/bin" "/tmp/work" 10 2000 2000 w).2 in
  (clean_all "/tmp/work" repo_name w = (Rejected (ToolFailed gen), w')
   /\ spawned w' = spawned w)
  \/ (ToolFailed gen = ToolFailed gen /\ spawned w' = spawned w ++ [gen])
  \/ (exists tickets,
        let link := Spawn Rld "/usr/bin" "/tmp/work" [] tickets
                          (Some ("/tmp/work", "a.out")) in
        ToolFailed gen = ToolFailed link /\ spawned w' = spawned w ++ [gen; link]).
Proof.
  apply (single_run_failure_origin "/usr/bin" "/tmp/work" 10 2000 2000
           (hostile_world (<["/tmp/work" := NDir ∅]> ∅))).
  vm_compute. reflexivity.
Defined.

(* ===================================================================== *)
(** ** More on the workspace cleaner                                      *)
(* ===================================================================== *)








(* ===================================================================== *)
(** ** More on the validation of the work directory                       *)
(* ===================================================================== *)



(* ===================================================================== *)
(** ** More on the parameter grid                                         *)
(* ===================================================================== *)

(** X11.  When the increment divides both maxima and the product of the
    maxima is below 2^53, with the square of the increment, so that the
    program's binary64 arithmetic is exact, the grid is the list of two
    nested loops over the multiples of the increment up to each maximum:
    the external count in the outer loop, the linkonce count in the inner
    loop. *)
Theorem grid_is_nested_loops (incr : Z) (k m : nat) :
  0 < incr -> (0 < k)%nat -> Z.of_nat (m * k) < 2 ^ 32 ->
  incr * incr < 2 ^ 53 ->
  (Z.of_nat k * incr) * (Z.of_nat m * incr) < 2 ^ 53 ->
  grid (Z.of_nat k * incr) (Z.of_nat m * incr) incr
  = Some (flat_map
            (fun a => map (fun b => ((Z.of_nat a + 1) * incr, (Z.of_nat b + 1) * incr))
                          (seq 0 k))
            (seq 0 m)).
Proof. intros Hc Hk Hsize _ _. by apply grid_of_multiples. Qed.

Lemma grid_is_nested_loops_witness :
  grid (Z.of_nat 3 * 1000) (Z.of_nat 2 * 1000) 1000
  = Some (flat_map
            (fun a => map (fun b => ((Z.of_nat a + 1) * 1000, (Z.of_nat b + 1) * 1000))
                          (seq 0 3))
            (seq 0 2)).
Proof.
  apply (grid_is_nested_loops 1000 3 2); [lia|lia|vm_compute; reflexivity|lia|lia].
Defined.

(** X12.  For positive maxima and a positive increment that divides the
    linkonce maximum, the product of the maxima and the square of the
    increment below 2^53, so that the program's binary64 arithmetic is
    exact: the grid has as many points as the integer quotient of the
    product of the maxima by the square of the increment; the linkonce
    count of every point is a multiple of the increment from the increment
    up to linkonce_max; the external count is a multiple of the increment
    from the increment up to less than external_max + increment. *)
Theorem grid_points_bounds (lomax extmax incr : Z) (points : list (Z * Z)) :
  0 < lomax -> 0 < extmax -> 0 < incr ->
  (incr | lomax) -> incr * incr < 2 ^ 53 -> lomax * extmax < 2 ^ 53 ->
  grid lomax extmax incr = Some points ->
  length points = Z.to_nat (lomax * extmax / (incr * incr))
  /\ forall point, point ∈ points ->
       (incr <= point.1 < extmax + incr /\ (incr | point.1))
       /\ (incr <= point.2 <= lomax /\ (incr | point.2)).
Proof.
  intros Hl He Hc [c Hdiv] _ _. unfold grid. rewrite sweep_length_exact by lia.
  set (n := lomax * extmax / (incr * incr)). unfold Array.
  destruct ((0 <=? n) && (n <? 2 ^ 32)); [|discriminate].
  intros [= <-]. split; [by rewrite length_map, length_seq|].
  intros point (i & -> & Hi)%list_elem_of_fmap.
  apply elem_of_seq in Hi. rewrite grid_point_exact by lia. simpl.
  assert (Z.of_nat i + 1 <= n) as Hin by lia.
  assert (incr * incr * n <= lomax * extmax) as Hn
    by (apply Z.mul_div_le; lia).
  set (q := Z.of_nat i * incr / lomax).
  assert (lomax * q <= Z.of_nat i * incr) as Hq by (apply Z.mul_div_le; lia).
  assert (0 <= q) as Hq0 by (apply Z.div_pos; lia).
  assert (0 < c) as Hc0 by nia.
  assert ((Z.of_nat i * incr) mod lomax = (Z.of_nat i mod c) * incr) as ->
    by (subst lomax; apply Z.mul_mod_distr_r; lia).
  pose proof (Z.mod_pos_bound (Z.of_nat i) c Hc0) as Hmod.
  split; [split|split].
  - split; [nia|].
    destruct (Z.lt_ge_cases (q * incr) extmax) as [Hlt|Hge]; [lia|].
    assert (extmax * lomax <= q * incr * lomax) by nia.
    assert ((Z.of_nat i + 1) * (incr * incr) <= lomax * extmax) by nia.
    nia.
  - exists (q + 1). lia.
  - nia.
  - exists (Z.of_nat i mod c + 1). lia.
Qed.

Lemma grid_points_bounds_witness :
  length [(2000, 2000); (2000, 4000); (2000, 6000);
          (4000, 2000); (4000, 4000); (4000, 6000)]
  = Z.to_nat (6000 * 4000 / (2000 * 2000))
  /\ forall point,
       point ∈ [(2000, 2000); (2000, 4000); (2000, 6000);
                (4000, 2000); (4000, 4000); (4000, 6000)] ->
       (2000 <= point.1 < 4000 + 2000 /\ (2000 | point.1))
       /\ (2000 <= point.2 <= 6000 /\ (2000 | point.2)).
Proof.
  apply (grid_points_bounds 6000 4000 2000); [lia|lia|lia| |lia|lia|].
  - exists 3. reflexivity.
  - vm_compute. reflexivity.
Defined.

Lemma grid_range_error (lomax extmax incr : Z) :
  incr = 0 \/ lomax * extmax < 0 -> grid lomax extmax incr = None.
Proof.
  intros [->|Hneg]; [reflexivity|].
  destruct (Z.eq_dec incr 0) as [->|Hc]; [reflexivity|].
  unfold grid. rewrite sweep_length_exact by done. unfold Array.
  assert (lomax * extmax / (incr * incr) < 0) as Hn
    by (apply Z.div_lt_upper_bound; nia).
  destruct (Z.leb_spec 0 (lomax * extmax / (incr * incr))); [lia|reflexivity].
Qed.

(** X13.  A zero increment, or maxima of opposite signs with an increment
    whose square is below 2^53 (the program's quotient is then a negative
    number, neither an infinity over an infinity nor a negative zero), make
    [Array] throw a RangeError: no grid is built, and once the validation
    has passed the driver starts no subprocess, writes nothing, reports the
    RangeError and sets the exit code to 1. *)
Theorem invalid_sweep_is_a_range_error (argv : Argv) (w : World) :
  increment argv = 0
  \/ (linkonce argv * external argv < 0
      /\ increment argv * increment argv < 2 ^ 53) ->
  (check_work_directory (workDir argv) (force argv) w).1 = Fulfilled true ->
  grid (linkonce argv) (external argv) (increment argv) = None
  /\ sweep argv w = (Rejected RangeError, w)
  /\ main argv w
     = set_exitCode 1
         (add_diagnostic (if debug argv then Trace RangeError else Message RangeError) w).
Proof.
  intros Hbad Hcheck.
  assert (grid (linkonce argv) (external argv) (increment argv) = None) as Hgrid
    by (apply grid_range_error; tauto).
  assert (sweep argv w = (Rejected RangeError, w)) as Hsweep.
  { unfold sweep, then_.
    pose proof (check_work_directory_world (workDir argv) (force argv) w) as Hw.
    destruct (check_work_directory (workDir argv) (force argv) w) as [o w1].
    simpl in *. subst. by rewrite Hgrid. }
  split; [done|]. split; [done|].
  apply (main_when_sweep_rejected argv w w RangeError Hsweep).
Qed.

Lemma invalid_sweep_is_a_range_error_witness :
  grid (linkonce zero_increment_argv) (external zero_increment_argv)
       (increment zero_increment_argv) = None
  /\ sweep zero_increment_argv (fresh_world (<["/tmp/work" := NDir ∅]> ∅))
     = (Rejected RangeError, fresh_world (<["/tmp/work" := NDir ∅]> ∅))
  /\ main zero_increment_argv (fresh_world (<["/tmp/work" := NDir ∅]> ∅))
     = set_exitCode 1
         (add_diagnostic
            (if debug zero_increment_argv then Trace RangeError else Message RangeError)
            (fresh_world (<["/tmp/work" := NDir ∅]> ∅))).
Proof.
  apply (invalid_sweep_is_a_range_error zero_increment_argv
           (fresh_world (<["/tmp/work" := NDir ∅]> ∅))).
  - left. reflexivity.
  - vm_compute. reflexivity.
Defined.

(* ===================================================================== *)
(** ** More on the sweep and on the top level                             *)
(* ===================================================================== *)

Lemma run_tasks_rows (argv : Argv) (points : list (Z * Z)) :
  forall w results w',
    run_serial (map (run_task argv) points) w = (Fulfilled results, w') ->
    measured_rows argv points w results w'.
Proof.
  induction points as [|point points IH]; intros w results w' Hrun; simpl in Hrun.
  - injection Hrun as <- <-. constructor.
  - unfold run_task at 1, then_ at 1, resolve at 1 in Hrun.
    destruct (single_run _ _ _ _ _ w) as [[time|e] w1] eqn:Hfirst; [|discriminate].
    destruct (run_serial _ w1) as [[rows|e] w2] eqn:Hrest; [|discriminate].
    injection Hrun as <- <-. econstructor; [exact Hfirst|]. by eapply IH.
Qed.

(** X14.  When the sweep fulfils, its results are one row per grid point, in
    the order of the grid, and each row holds the external and the linkonce
    count of its grid point, followed by the time of that run: the number
    that the single run of that point returned, started in the world that
    the run of the point before it left (the first one in the world at the
    start, which the validation leaves as it is); the sweep ends in the
    world that the last run left. *)
Theorem sweep_rows_follow_the_grid (argv : Argv) (w : World)
    (results : list (list Z)) (w' : World) :
  sweep argv w = (Fulfilled results, w') ->
  exists points,
    grid (linkonce argv) (external argv) (increment argv) = Some points
    /\ measured_rows argv points w results w'.
Proof.
  unfold sweep, then_.
  pose proof (check_work_directory_world (workDir argv) (force argv) w) as Hw.
  destruct (check_work_directory (workDir argv) (force argv) w) as [[b|e] w1];
    [|discriminate].
  simpl in Hw. subst w1.
  destruct (grid (linkonce argv) (external argv) (increment argv)) as [points|];
    [|discriminate].
  rewrite serialize_tasks_run_serial. intros Hrun.
  exists points. split; [done|]. by eapply run_tasks_rows.
Qed.

Lemma sweep_rows_follow_the_grid_witness :
  exists points,
    grid (linkonce one_point_argv) (external one_point_argv) (increment one_point_argv)
    = Some points
    /\ measured_rows one_point_argv points
         (fresh_world (<["/tmp/work" := NDir ∅]> ∅)) [[2000; 2000; 7]]
         (sweep one_point_argv (fresh_world (<["/tmp/work" := NDir ∅]> ∅))).2.
Proof.
  apply (sweep_rows_follow_the_grid one_point_argv
           (fresh_world (<["/tmp/work" := NDir ∅]> ∅)) [[2000; 2000; 7]]
           (sweep one_point_argv (fresh_world (<["/tmp/work" := NDir ∅]> ∅))).2).
  vm_compute. reflexivity.
Defined.

(** What a subprocess was started for: the tool and its numeric arguments. *)
Lemma run_tasks_spawned (argv : Argv) (points : list (Z * Z)) :
  forall w results w',
    run_serial (map (run_task argv) points) w = (Fulfilled results, w') ->
    map (fun inv => (inv_tool inv, inv_numbers inv)) (spawned w')
    = map (fun inv => (inv_tool inv, inv_numbers inv)) (spawned w)
      ++ flat_map (fun point => [(RldGen, [modules argv; point.1; point.2]); (Rld, [])])
                  points.
Proof.
  induction points as [|point points IH]; intros w results w' Hrun; simpl in Hrun.
  - injection Hrun as <- <-. simpl. by rewrite app_nil_r.
  - unfold run_task at 1, then_ at 1, resolve at 1 in Hrun.
    rewrite single_run_steps in Hrun.
    pose proof (keeps_clean_all spawned (fun _ _ => eq_refl) (workDir argv) repo_name w)
      as Hclean.
    destruct (clean_all (workDir argv) repo_name w) as [[[]|e] w1];
      [|discriminate]. simpl in Hclean.
    match type of Hrun with context [exec ?inv w1] =>
      pose proof (exec_spawned inv w1) as Hgen;
      destruct (exec inv w1) as [[[]|e] w2]; [|discriminate]
    end. simpl in Hgen.
    match type of Hrun with context [exec ?inv w2] =>
      pose proof (exec_spawned inv w2) as Hlink;
      destruct (exec inv w2) as [[[]|e] w3]; [|discriminate]
    end. simpl in Hlink.
    destruct (run_serial _ w3) as [[rows|e] w4] eqn:Hrest; [|discriminate].
    injection Hrun as <- <-.
    rewrite (IH w3 rows w4 Hrest), Hlink, Hgen, Hclean.
    rewrite !map_app. simpl. by rewrite <- !app_assoc.
Qed.

(** X15.  When the sweep fulfils, the subprocesses it started are, for each
    grid point in order, the generator with the module count and the two
    symbol counts of that point, then the repo linker: one run at a time,
    the generator of a grid point never before the linker of the point
    before it. *)
Theorem sweep_spawns_generator_then_linker (argv : Argv) (w : World)
    (results : list (list Z)) (w' : World) :
  sweep argv w = (Fulfilled results, w') ->
  exists points,
    grid (linkonce argv) (external argv) (increment argv) = Some points
    /\ map (fun inv => (inv_tool inv, inv_numbers inv)) (spawned w')
       = map (fun inv => (inv_tool inv, inv_numbers inv)) (spawned w)
         ++ flat_map
              (fun point => [(RldGen, [modules argv; point.1; point.2]); (Rld, [])])
              points.
Proof.
  unfold sweep, then_.
  pose proof (check_work_directory_world (workDir argv) (force argv) w) as Hw.
  destruct (check_work_directory (workDir argv) (force argv) w) as [[b|e] w1];
    [|discriminate].
  simpl in Hw. subst w1.
  destruct (grid (linkonce argv) (external argv) (increment argv)) as [points|];
    [|discriminate].
  rewrite serialize_tasks_run_serial. intros Hrun.
  exists points. split; [done|]. by eapply run_tasks_spawned.
Qed.

Lemma sweep_spawns_generator_then_linker_witness :
  exists points,
    grid (linkonce default_argv) (external default_argv) (increment default_argv)
    = Some points
    /\ map (fun inv => (inv_tool inv, inv_numbers inv))
           (spawned (sweep default_argv (fresh_world (<["/tmp/work" := NDir ∅]> ∅))).2)
       = map (fun inv => (inv_tool inv, inv_numbers inv))
             (spawned (fresh_world (<["/tmp/work" := NDir ∅]> ∅)))
         ++ flat_map
              (fun point =>
                 [(RldGen, [modules default_argv; point.1; point.2]); (Rld, [])])
              points.
Proof.
  apply (sweep_spawns_generator_then_linker default_argv
           (fresh_world (<["/tmp/work" := NDir ∅]> ∅))
           [[1000; 1000; 7]; [1000; 2000; 7]; [2000; 1000; 7]; [2000; 2000; 7]]).
  vm_compute. reflexivity.
Defined.

Section FrameOfTheHistory.
Context {X : Type} (proj : World -> X).
Context (Hblind : blind_to_files proj).
Context (Hsub : forall inv fs now w, proj (after_subprocess inv fs now w) = proj w).

Lemma exec_keeps (inv : Invocation) : keeps proj (exec inv).
Proof.
  intros w. unfold exec.
  destruct (subprocess w inv (files w) (clock w)) as [[fs now] success]. apply Hsub.
Qed.

Lemma single_run_keeps bin_dir work_dir num_modules num_external num_linkonce :
  keeps proj (single_run bin_dir work_dir num_modules num_external num_linkonce).
Proof.
  intros w. rewrite single_run_steps.
  pose proof (keeps_clean_all proj Hblind work_dir repo_name w) as Hclean.
  destruct (clean_all work_dir repo_name w) as [[[]|e] w1]; simpl in Hclean; [|done].
  match goal with |- context [exec ?inv w1] =>
    pose proof (exec_keeps inv w1) as Hgen; destruct (exec inv w1) as [[[]|e] w2]
  end; simpl in Hgen; [|simpl; congruence].
  match goal with |- context [exec ?inv w2] =>
    pose proof (exec_keeps inv w2) as Hlink; destruct (exec inv w2) as [[[]|e] w3]
  end; simpl in *; congruence.
Qed.

Lemma sweep_keeps (argv : Argv) : keeps proj (sweep argv).
Proof.
  unfold sweep. apply keeps_then; intros; [keeps_step|].
  destruct (grid (linkonce argv) (external argv) (increment argv)) as [points|];
    [|keeps_step].
  apply keeps_serialize_tasks. intros item Hin.
  apply list_elem_of_fmap in Hin as (point & -> & _).
  unfold run_task. apply keeps_then; intros; [|keeps_step].
  apply single_run_keeps.
Qed.

End FrameOfTheHistory.

(** X16.  After a sweep that fulfilled, the driver ends in one of two ways.
    When the results go to standard output, or to a path on which writing
    does not fail, the exit code and the diagnostics are as they were at
    the start: nothing is reported.  When writing the output file fails,
    because the path is a directory or because the file system refuses (a
    missing parent directory, permissions), the failure is reported like
    any other and the exit code is 1. *)
Theorem main_after_a_fulfilled_sweep (argv : Argv) (w : World)
    (results : list (list Z)) (w1 : World) :
  sweep argv w = (Fulfilled results, w1) ->
  ((output argv = "-" \/ write_error w1 (output argv) = None) ->
   exitCode (main argv w) = exitCode w
   /\ diagnostics (main argv w) = diagnostics w)
  /\ (output argv <> "-" ->
      forall err,
        write_error w1 (output argv) = Some err ->
        exitCode (main argv w) = 1
        /\ diagnostics (main argv w)
           = diagnostics w ++ [if debug argv then Trace err else Message err]).
Proof.
  intros Hsweep.
  pose proof (sweep_keeps exitCode (fun _ _ => eq_refl) (fun _ _ _ _ => eq_refl) argv w)
    as Hexit.
  pose proof (sweep_keeps diagnostics (fun _ _ => eq_refl) (fun _ _ _ _ => eq_refl) argv w)
    as Hdiag.
  rewrite Hsweep in Hexit, Hdiag. simpl in Hexit, Hdiag.
  unfold main, catch_, then_. rewrite Hsweep. unfold report.
  split.
  - intros Hok. destruct (String.eqb_spec (output argv) "-") as [Heq|Hne]; [done|].
    destruct Hok as [Heq|Hnone]; [done|].
    unfold writeFile. by rewrite Hnone.
  - intros Hne err Herr.
    destruct (String.eqb_spec (output argv) "-") as [Heq|_]; [done|].
    unfold writeFile. rewrite Herr. simpl. by rewrite Hdiag.
Qed.

Lemma main_after_a_fulfilled_sweep_witness :
  (exitCode (main one_point_argv (fresh_world (<["/tmp/work" := NDir ∅]> ∅)))
   = exitCode (fresh_world (<["/tmp/work" := NDir ∅]> ∅))
   /\ diagnostics (main one_point_argv (fresh_world (<["/tmp/work" := NDir ∅]> ∅)))
      = diagnostics (fresh_world (<["/tmp/work" := NDir ∅]> ∅)))
  /\ (exitCode (main to_file_argv
                  (fresh_world (<["/tmp/out" := NDir ∅]> (<["/tmp/work" := NDir ∅]> ∅))))
      = 1
      /\ diagnostics (main to_file_argv
                        (fresh_world (<["/tmp/out" := NDir ∅]> (<["/tmp/work" := NDir ∅]> ∅))))
         = diagnostics (fresh_world (<["/tmp/out" := NDir ∅]> (<["/tmp/work" := NDir ∅]> ∅)))
           ++ [if debug to_file_argv then Trace (EISDIR (output to_file_argv))
               else Message (EISDIR (output to_file_argv))]).
Proof.
  split.
  - refine (proj1 (main_after_a_fulfilled_sweep one_point_argv
                     (fresh_world (<["/tmp/work" := NDir ∅]> ∅)) [[2000; 2000; 7]]
                     (sweep one_point_argv (fresh_world (<["/tmp/work" := NDir ∅]> ∅))).2
                     _) _).
    + vm_compute. reflexivity.
    + left. reflexivity.
  - refine (proj2 (main_after_a_fulfilled_sweep to_file_argv
                     (fresh_world (<["/tmp/out" := NDir ∅]> (<["/tmp/work" := NDir ∅]> ∅)))
                     [[2000; 2000; 7]]
                     (sweep to_file_argv
                        (fresh_world (<["/tmp/out" := NDir ∅]>
                                        (<["/tmp/work" := NDir ∅]> ∅)))).2
                     _) _ (EISDIR (output to_file_argv)) _).
    + vm_compute. reflexivity.
    + discriminate.
    + vm_compute. reflexivity.
Defined.




Lemma exec_clock (inv : Invocation) (w : World) :
  clock (exec inv w).2 = (subprocess w inv (files w) (clock w)).1.2.
Proof.
  unfold exec.
  by destruct (subprocess w inv (files w) (clock w)) as [[fs now] success].
Qed.

(** X18.  When no external program moves the clock backwards, the time that
    a single run returns is not negative. *)
Theorem single_run_time_not_negative
    (bin_dir work_dir : string) (num_modules num_external num_linkonce : Z)
    (w : World) (time : Z) (w' : World) :
  (forall inv fs now, now <= (subprocess w inv fs now).1.2) ->
  single_run bin_dir work_dir num_modules num_external num_linkonce w
  = (Fulfilled time, w') ->
  0 <= time.
Proof.
  intros Hmono. rewrite single_run_steps.
  pose proof (keeps_clean_all subprocess (fun _ _ => eq_refl) work_dir repo_name w)
    as Hclean.
  destruct (clean_all work_dir repo_name w) as [[[]|err] w1]; [|discriminate].
  simpl in Hclean.
  match goal with |- context [exec ?inv w1] =>
    pose proof (exec_keeps subprocess (fun _ _ _ _ => eq_refl) inv w1) as Hgen;
    destruct (exec inv w1) as [[[]|err] w2]; [|discriminate]
  end. simpl in Hgen.
  match goal with |- context [exec ?inv w2] =>
    pose proof (exec_clock inv w2) as Hlink;
    destruct (exec inv w2) as [[[]|err] w3]; [|discriminate]
  end. simpl in Hlink.
  intros [= <- <-]. rewrite Hlink, Hgen, Hclean.
  match goal with |- context [subprocess w ?inv ?fs ?now] =>
    specialize (Hmono inv fs now)
  end. lia.
Qed.

Lemma single_run_time_not_negative_witness : 0 <= 7.
Proof.
  apply (single_run_time_not_negative "/usr/bin" "/tmp/work" 10 2000 2000
           (fresh_world (<["/tmp/work" := NDir stale_entries]> ∅)) 7
           (single_run "/usr/bin" "/tmp/work" 10 2000 2000
              (fresh_world (<["/tmp/work" := NDir stale_entries]> ∅))).2).
  - intros inv fs now. unfold fresh_world, subprocess, obliging.
    destruct (inv_tool inv); simpl; lia.
  - vm_compute. reflexivity.
Defined.
